(** * The stream transformer and the evaluation poller

    A shallow embedding of two parts of the repository:

    - [transformAgentStreamToUIStream] of the chat route (the POST handler
      of the chat API): the read loop that decodes the agent service's byte
      chunks, splits them into lines, parses the [data: ] lines and enqueues
      UI stream events;
    - [startPolling], [stopPolling], [stopAllPolling], [fetchJob],
      [fetchResults] of the evaluation store
      (rag-admin-ui/lib/stores/evaluation-store.ts).

    Module [Stream] holds the first, module [Poller] the second. *)

From Stdlib Require Import ZArith Ascii String.
From Stdlib Require SpecFloat.
From stdpp Require Import base option list gmap strings.

Local Open Scope Z_scope.
Set Warnings "-register-all".

Module Stream.

(** ** JavaScript strings and values *)

(** A JavaScript string is a sequence of UTF-16 code units. *)
Abbreviation jsstring := (list Z).

(** The code units of an ASCII literal of the source, such as ['data: ']. *)
Fixpoint str (s : string) : jsstring :=
  match s with
  | EmptyString => []
  | String a s' => Z.of_N (N_of_ascii a) :: str s'
  end.

(** The same for a literal that holds JSON text: an apostrophe in [s] stands
    for the double quote (code unit 34) of the text. *)
Fixpoint quoted (s : string) : jsstring :=
  match s with
  | EmptyString => []
  | String a s' =>
      (if Ascii.eqb a "'"%char then 34 else Z.of_N (N_of_ascii a)) :: quoted s'
  end.

(** What [JSON.parse] can return.  A number [JNum m e] is the double nearest
    to [m * 10^e]; object fields are kept in order, the first entry of a key
    being the property's value. *)
Inductive JsValue : Type :=
  | JNull
  | JBool (b : bool)
  | JNum (m e : Z)
  | JString (s : jsstring)
  | JArray (elements : list JsValue)
  | JObject (fields : list (jsstring * JsValue)).

(** The value of a property read: [None] is [undefined]. *)
Abbreviation JsProp := (option JsValue).

(** Exceptions that the loop can meet. *)
Inductive JsError : Type :=
  | SyntaxError                      (* thrown by JSON.parse *)
  | TypeError                        (* property read on null, call of a non-function *)
  | ReadError (message : jsstring).  (* rejection of reader.read() *)

(** The outcome of an expression that may throw. *)
Inductive Completion (A : Type) : Type :=
  | Normal (a : A)
  | Throw (e : JsError).
Arguments Normal {A} a.
Arguments Throw {A} e.

#[export] Instance Completion_ret : MRet Completion := fun A a => Normal a.

#[export] Instance Completion_bind : MBind Completion := fun A B k c =>
  match c with
  | Normal a => k a
  | Throw e => Throw e
  end.

(** [xs.map(f)] for an [f] that may throw: the first exception ends the map. *)
Fixpoint mapM {A B} (f : A -> Completion B) (xs : list A) : Completion (list B) :=
  match xs with
  | [] => Normal []
  | x :: xs' => y ← f x; ys ← mapM f xs'; Normal (y :: ys)
  end.

(** [o[k]] on the fields of an object. *)
Fixpoint lookup_field (k : jsstring) (fields : list (jsstring * JsValue)) : JsProp :=
  match fields with
  | [] => None
  | (k', v) :: rest => if bool_decide (k' = k) then Some v else lookup_field k rest
  end.

(** [v.k] for the property names the transformer reads ([type], [content],
    [classification], [sources], [metadata], [source], [page], [chunk_index],
    [relevance_score]): no prototype defines them, so only an object can have
    them; reading a property of [null] throws. *)
Definition get_prop (v : JsValue) (k : jsstring) : Completion JsProp :=
  match v with
  | JNull => Throw TypeError
  | JObject fields => Normal (lookup_field k fields)
  | _ => Normal None
  end.

(** [m?.k] where [m] is itself the result of a property read. *)
Definition opt_chain (m : JsProp) (k : jsstring) : JsProp :=
  match m with
  | None | Some JNull => None
  | Some (JObject fields) => lookup_field k fields
  | Some _ => None
  end.

(** A double nearest to [m * 10^e] is zero when [m] is, or when the magnitude
    is at most half the least subnormal, [2^-1075]. *)
Definition num_is_zero (m e : Z) : bool :=
  (m =? 0) || ((e <? 0) && (Z.abs m * 2 ^ 1075 <=? 10 ^ (- e))).

(** ToBoolean. *)
Definition truthy (v : JsProp) : bool :=
  match v with
  | None | Some JNull => false
  | Some (JBool b) => b
  | Some (JNum m e) => negb (num_is_zero m e)
  | Some (JString s) => negb (bool_decide (s = []))
  | Some (JArray _) | Some (JObject _) => true
  end.

(** [v || d] for a default [d] that is a value. *)
Definition js_or (v : JsProp) (d : JsValue) : JsValue :=
  match v with
  | Some x => if truthy v then x else d
  | None => d
  end.

(** [v === s] for a string literal [s]. *)
Definition strict_eq_str (v : JsProp) (s : jsstring) : bool :=
  match v with
  | Some (JString s') => bool_decide (s' = s)
  | _ => false
  end.

(** ** String operations of the loop *)

(** WhiteSpace and LineTerminator code units, which [trim] strips. *)
Definition is_js_space (c : Z) : bool :=
  bool_decide (c ∈ [0x9; 0xA; 0xB; 0xC; 0xD; 0x20; 0xA0; 0x1680; 0x2028; 0x2029;
                    0x202F; 0x205F; 0x3000; 0xFEFF])
  || ((0x2000 <=? c) && (c <=? 0x200A)).

Fixpoint trimStart (s : jsstring) : jsstring :=
  match s with
  | c :: s' => if is_js_space c then trimStart s' else s
  | [] => []
  end.

Definition trim (s : jsstring) : jsstring :=
  reverse (trimStart (reverse (trimStart s))).

(** [s.startsWith(p)]. *)
Fixpoint startsWith (p s : jsstring) : bool :=
  match p, s with
  | [], _ => true
  | a :: p', b :: s' => (a =? b) && startsWith p' s'
  | _ :: _, [] => false
  end.

(** [s.slice(n)] for [n >= 0]. *)
Definition slice (n : nat) (s : jsstring) : jsstring := drop n s.

(** [s.split('\n')]: never empty. *)
Fixpoint split_nl (s : jsstring) : list jsstring :=
  match s with
  | [] => [[]]
  | c :: s' =>
      if c =? 10 then [] :: split_nl s'
      else match split_nl s' with
           | l :: ls => (c :: l) :: ls
           | [] => [[c]]
           end
  end.

(** The lines of [s.split('\n')] before the last, and the last. *)
Definition full_lines (s : jsstring) : list jsstring := removelast (split_nl s).
Definition last_line (s : jsstring) : jsstring := default [] (last (split_nl s)).

(** ** The text decoder

    [new TextDecoder()] is the platform's UTF-8 decoder in replacement mode,
    BOM not ignored.  Its state is that of the Encoding Standard's UTF-8
    decoder, and the flag that tells whether the first scalar value was
    serialized already. *)

Record Utf8Decoder : Type := {
  code_point : Z;
  bytes_seen : Z;
  bytes_needed : Z;
  lower_boundary : Z;
  upper_boundary : Z
}.

Definition utf8_initial : Utf8Decoder :=
  {| code_point := 0; bytes_seen := 0; bytes_needed := 0;
     lower_boundary := 0x80; upper_boundary := 0xBF |}.

Definition in_range (lo hi b : Z) : bool := (lo <=? b) && (b <=? hi).

(** The handler on a byte when no byte is needed: a lead byte, or an error,
    which replacement mode turns into U+FFFD. *)
Definition utf8_lead (b : Z) : Utf8Decoder * list Z :=
  if in_range 0x00 0x7F b then (utf8_initial, [b])
  else if in_range 0xC2 0xDF b then
    ({| code_point := Z.land b 0x1F; bytes_seen := 0; bytes_needed := 1;
        lower_boundary := 0x80; upper_boundary := 0xBF |}, [])
  else if in_range 0xE0 0xEF b then
    ({| code_point := Z.land b 0xF; bytes_seen := 0; bytes_needed := 2;
        lower_boundary := if b =? 0xE0 then 0xA0 else 0x80;
        upper_boundary := if b =? 0xED then 0x9F else 0xBF |}, [])
  else if in_range 0xF0 0xF4 b then
    ({| code_point := Z.land b 0x7; bytes_seen := 0; bytes_needed := 3;
        lower_boundary := if b =? 0xF0 then 0x90 else 0x80;
        upper_boundary := if b =? 0xF4 then 0x8F else 0xBF |}, [])
  else (utf8_initial, [0xFFFD]).

(** The handler on any byte.  A byte outside the boundaries resets the
    decoder, yields U+FFFD and is handled again as a lead byte. *)
Definition utf8_handler (d : Utf8Decoder) (b : Z) : Utf8Decoder * list Z :=
  if bytes_needed d =? 0 then utf8_lead b
  else if negb (in_range (lower_boundary d) (upper_boundary d) b) then
    let '(d', out) := utf8_lead b in (d', 0xFFFD :: out)
  else
    let cp := Z.lor (Z.shiftl (code_point d) 6) (Z.land b 0x3F) in
    let seen := bytes_seen d + 1 in
    if seen =? bytes_needed d then (utf8_initial, [cp])
    else ({| code_point := cp; bytes_seen := seen; bytes_needed := bytes_needed d;
             lower_boundary := 0x80; upper_boundary := 0xBF |}, []).

(** The handler over the bytes of one chunk; with [stream: true] the end of
    the chunk is not handled, so an unfinished sequence stays in the state. *)
Fixpoint utf8_run (d : Utf8Decoder) (bytes : list Z) : Utf8Decoder * list Z :=
  match bytes with
  | [] => (d, [])
  | b :: bs =>
      let '(d1, out1) := utf8_handler d b in
      let '(d2, out2) := utf8_run d1 bs in
      (d2, out1 ++ out2)
  end.

Record TextDecoder : Type := {
  utf8 : Utf8Decoder;
  BOM_seen : bool
}.

Definition new_TextDecoder : TextDecoder :=
  {| utf8 := utf8_initial; BOM_seen := false |}.

(** Serializing the scalar values: the first one ever serialized is dropped
    when it is U+FEFF. *)
Definition serialize (bom_seen : bool) (scalars : list Z) : bool * list Z :=
  match scalars with
  | [] => (bom_seen, [])
  | c :: rest => (true, if negb bom_seen && (c =? 0xFEFF) then rest else scalars)
  end.

(** The code units of a scalar value. *)
Definition utf16 (cp : Z) : jsstring :=
  if cp <? 0x10000 then [cp]
  else [0xD800 + Z.shiftr (cp - 0x10000) 10; 0xDC00 + Z.land (cp - 0x10000) 0x3FF].

(** [decoder.decode(value, { stream: true })]. *)
Definition decode (dec : TextDecoder) (value : list Z) : TextDecoder * jsstring :=
  let '(d, scalars) := utf8_run (utf8 dec) value in
  let '(seen, kept) := serialize (BOM_seen dec) scalars in
  ({| utf8 := d; BOM_seen := seen |}, concat (map utf16 kept)).

(** ** The events of the UI stream *)

(** An element of the [sources] array of a [data] event. *)
Record SourceAnnotation : Type := {
  title : JsValue;
  url : JsValue;
  content : JsProp;
  relevance_score : JsProp;
  page : JsProp;
  chunk_index : JsProp
}.

Record Usage : Type := {
  promptTokens : Z;
  completionTokens : Z;
  totalTokens : Z
}.

(** The objects passed to [controller.enqueue], by their [type]. *)
Inductive UIEvent : Type :=
  | TextDelta (textDelta : JsProp)                              (* type: 'text-delta' *)
  | Data (sources : list SourceAnnotation) (num_sources : nat)  (* type: 'data' *)
  | Finish (finishReason : jsstring) (usage : Usage).           (* type: 'finish' *)

(** A [console.warn('Failed to parse SSE data:', line, parseError)]. *)
Record Warning : Type := {
  warned_line : jsstring;
  parseError : JsError
}.

(** ** The body of the loop *)

(** The callback of [sources.map]. *)
Definition map_source (s : JsValue) : Completion SourceAnnotation :=
  metadata ← get_prop s (str "metadata");
  s_content ← get_prop s (str "content");
  s_score ← get_prop s (str "relevance_score");
  Normal {| title := js_or (opt_chain metadata (str "source")) (JString (str "Document"));
            url := js_or (opt_chain metadata (str "source")) (JString (str "#"));
            content := s_content;
            relevance_score := s_score;
            page := opt_chain metadata (str "page");
            chunk_index := opt_chain metadata (str "chunk_index") |}.

(** [sources = data.sources || []] followed by [sources.map(...)] and
    [sources.length]: only an array has [map]. *)
Definition sources_event (data_sources : JsProp) : Completion (list UIEvent) :=
  if truthy data_sources then
    match data_sources with
    | Some (JArray sources) =>
        mapped ← mapM map_source sources;
        Normal [Data mapped (length sources)]
    | _ => Throw TypeError
    end
  else Normal [Data [] 0].

Definition finish_stop : UIEvent :=
  Finish (str "stop") {| promptTokens := 0; completionTokens := 0; totalTokens := 0 |}.

(** Whether ToString throws on a value of [JSON.parse].  An object is
    converted by the first of its [toString] and [valueOf] methods that is
    callable and returns a primitive: [Object.prototype.valueOf] returns the
    object itself and [Object.prototype.toString] a string, so the conversion
    throws exactly when the object has a [toString] property of its own, which
    hides the prototype's and, being a JSON value, is not callable.  An array
    is converted by [join], which converts each element but [null]. *)
Fixpoint to_string_throws (v : JsValue) : bool :=
  match v with
  | JObject fields => bool_decide (is_Some (lookup_field (str "toString") fields))
  | JArray elements => existsb to_string_throws elements
  | _ => false
  end.

(** [currentText += v]: the string that results is read nowhere, the
    conversion of [v] to a string is what can be observed of it. *)
Definition append_text (v : JsProp) : Completion unit :=
  match v with
  | Some x => if to_string_throws x then Throw TypeError else Normal ()
  | None => Normal ()
  end.

(** [switch (data.type) { ... }]: the events it enqueues, or the exception it
    throws before enqueuing any.  The locals [currentText], [classification],
    [sources] and [messageId] are assigned here and read nowhere else, so
    they are not part of the result. *)
Definition switch_data (data : JsValue) : Completion (list UIEvent) :=
  type ← get_prop data (str "type");
  if strict_eq_str type (str "token") then
    data_content ← get_prop data (str "content");
    append_text data_content;;
    Normal [TextDelta data_content]
  else if strict_eq_str type (str "classification") then
    Normal []
  else if strict_eq_str type (str "sources") then
    data_sources ← get_prop data (str "sources");
    sources_event data_sources
  else if strict_eq_str type (str "done") then
    Normal [finish_stop]
  else Normal [].

(** ** Backend events

    A backend event is the [data] that the payload of a data line parsed to;
    the names below read one or a sequence of them. *)

Abbreviation BackendEvent := JsValue.

(** [data.type] and [data.content], [undefined] where the read throws. *)
Definition event_type (ev : BackendEvent) : JsProp :=
  match get_prop ev (str "type") with
  | Normal type => type
  | Throw _ => None
  end.

Definition event_content (ev : BackendEvent) : JsProp :=
  match get_prop ev (str "content") with
  | Normal c => c
  | Throw _ => None
  end.

Definition has_type (name : string) (ev : BackendEvent) : bool :=
  strict_eq_str (event_type ev) (str name).

(** What the [try] block enqueues for one event: what the switch does, and
    nothing when it throws. *)
Definition translate (ev : BackendEvent) : list UIEvent :=
  match switch_data ev with
  | Normal events => events
  | Throw _ => []
  end.

(** The same for the events of a stream, in order. *)
Definition normalize (evs : list BackendEvent) : list UIEvent :=
  concat (map translate evs).

Definition is_finish (e : UIEvent) : bool :=
  match e with
  | Finish _ _ => true
  | _ => false
  end.



(** An event whose [content] can be appended to a string: every event but
    those whose content is an object with a [toString] property, or an array
    that holds one. *)
Definition appends (ev : BackendEvent) : bool :=
  match event_content ev with
  | Some v => negb (to_string_throws v)
  | None => true
  end.

(** The concatenation of texts, defined when each of them is a string. *)
Fixpoint concat_texts (texts : list JsProp) : option jsstring :=
  match texts with
  | [] => Some []
  | Some (JString s) :: rest => rest' ← concat_texts rest; Some (s ++ rest')
  | _ :: _ => None
  end.

(** How many elements of a list satisfy [p]. *)
Fixpoint count {A} (p : A -> bool) (l : list A) : nat :=
  match l with
  | [] => 0%nat
  | x :: l' => ((if p x then 1 else 0) + count p l')%nat
  end.

(** The events [{"type":"token","content":text}], [{"type":"done"}] and
    [{"type":"error","error":message}] of the agent service. *)
Definition token_event (text : jsstring) : BackendEvent :=
  JObject [(str "type", JString (str "token")); (str "content", JString text)].

Definition done_event : BackendEvent :=
  JObject [(str "type", JString (str "done"))].

Definition error_event (message : jsstring) : BackendEvent :=
  JObject [(str "type", JString (str "error")); (str "error", JString message)].

(** The line of a payload: [data: ] followed by the payload. *)
Definition data_line (payload : jsstring) : jsstring := str "data: " ++ payload.

Section Parser.

(** [JSON.parse] is the platform's: [None] when it throws its SyntaxError. *)
Variable JSON_parse : jsstring -> option JsValue.

(** The body of [for (const line of lines)]: the events enqueued and the
    warnings logged for one line. *)
Definition process_line (line : jsstring) : list UIEvent * list Warning :=
  if bool_decide (trim line = []) || startsWith (str ":") line then ([], [])
  else if startsWith (str "data: ") line then
    match JSON_parse (slice 6 line) with
    | None => ([], [{| warned_line := line; parseError := SyntaxError |}])
    | Some data =>
        match switch_data data with
        | Normal events => (events, [])
        | Throw e => ([], [{| warned_line := line; parseError := e |}])
        end
    end
  else ([], []).

(** A data line whose payload is a [done] event. *)
Definition done_line (line : jsstring) : bool :=
  startsWith (str "data: ") line &&
  match JSON_parse (slice 6 line) with
  | Some data => has_type "done" data
  | None => false
  end.

(** A data line whose payload is an [error] event. *)
Definition error_line (line : jsstring) : bool :=
  startsWith (str "data: ") line &&
  match JSON_parse (slice 6 line) with
  | Some data => has_type "error" data
  | None => false
  end.

Fixpoint process_lines (lines : list jsstring) : list UIEvent * list Warning :=
  match lines with
  | [] => ([], [])
  | line :: rest =>
      let '(events1, warnings1) := process_line line in
      let '(events2, warnings2) := process_lines rest in
      (events1 ++ events2, warnings1 ++ warnings2)
  end.

(** ** The read loop *)

(** The variables that live across iterations of [while (true)]. *)
Record LoopState : Type := {
  decoder : TextDecoder;
  buffer : jsstring
}.

Definition loop_start : LoopState :=
  {| decoder := new_TextDecoder; buffer := [] |}.

(** One iteration on a chunk, up to the [for]: the new decoder and buffer,
    and the [lines] left after [lines.pop()]. *)
Definition read_lines (st : LoopState) (value : list Z) : LoopState * list jsstring :=
  let '(dec, text) := decode (decoder st) value in
  let lines := split_nl (buffer st ++ text) in
  ({| decoder := dec; buffer := default [] (last lines) |}, removelast lines).

(** The lines the loop hands to its [for], over all chunks. *)
Fixpoint decoded_lines (st : LoopState) (chunks : list (list Z)) : list jsstring :=
  match chunks with
  | [] => []
  | value :: rest =>
      let '(st', lines) := read_lines st value in
      lines ++ decoded_lines st' rest
  end.

(** The iterations of the loop for the chunks that [reader.read()] yields. *)
Fixpoint read_loop (st : LoopState) (chunks : list (list Z)) : list UIEvent * list Warning :=
  match chunks with
  | [] => ([], [])
  | value :: rest =>
      let '(st', lines) := read_lines st value in
      let '(events1, warnings1) := process_lines lines in
      let '(events2, warnings2) := read_loop st' rest in
      (events1 ++ events2, warnings1 ++ warnings2)
  end.

(** How [reader.read()] ends after the chunks: [{done: true}] or a rejection. *)
Inductive ReadEnd : Type :=
  | read_done
  | read_rejects (error : JsError).

(** The agent stream as the loop sees it. *)
Record AgentStream : Type := {
  chunks : list (list Z);
  ending : ReadEnd
}.

(** How the returned stream ends: [controller.close()] or
    [controller.error(error)]. *)
Inductive StreamEnd : Type :=
  | closed
  | errored (error : JsError).

(** What the loop does to the returned stream and to the console: the events
    it enqueues, how it ends the stream, the warnings it logs. *)
Record UIStream : Type := {
  enqueued : list UIEvent;
  termination : StreamEnd;
  console : list Warning
}.

Definition transformAgentStreamToUIStream (agentStream : AgentStream) : UIStream :=
  let '(events, warnings) := read_loop loop_start (chunks agentStream) in
  {| enqueued := events;
     termination := match ending agentStream with
                    | read_done => closed
                    | read_rejects error => errored error
                    end;
     console := warnings |}.

End Parser.

(** What a consumer can have read of the returned stream when it learns how
    the stream ended.  After [controller.close()] the reads first take what
    is queued, so every event enqueued is read.  [controller.error(error)]
    empties the queue and every later read rejects: the events read are those
    taken before it, a prefix of the events enqueued. *)
Definition observes (out : UIStream) (seen : list UIEvent) : Prop :=
  match termination out with
  | closed => seen = enqueued out
  | errored _ => seen `prefix_of` enqueued out
  end.

(** ** A JSON parser

    The grammar of ECMA-404, to run the loop on concrete lines. *)

Definition is_json_ws (c : Z) : bool :=
  (c =? 0x20) || (c =? 0x9) || (c =? 0xA) || (c =? 0xD).

Fixpoint skip_ws (s : jsstring) : jsstring :=
  match s with
  | c :: s' => if is_json_ws c then skip_ws s' else s
  | [] => []
  end.

Definition is_digit (c : Z) : bool := in_range 48 57 c.

Definition hex_value (c : Z) : option Z :=
  if in_range 48 57 c then Some (c - 48)
  else if in_range 65 70 c then Some (c - 55)
  else if in_range 97 102 c then Some (c - 87)
  else None.

(** The character of a two-character escape. *)
Definition escape_value (c : Z) : option Z :=
  if c =? 34 then Some 34 else if c =? 92 then Some 92 else if c =? 47 then Some 47
  else if c =? 98 then Some 8 else if c =? 102 then Some 12 else if c =? 110 then Some 10
  else if c =? 114 then Some 13 else if c =? 116 then Some 9 else None.

(** The characters of a string after its opening quote, and what follows the
    closing quote. *)
Fixpoint parse_chars (s : jsstring) : option (jsstring * jsstring) :=
  match s with
  | [] => None
  | c :: rest =>
      if c =? 34 then Some ([], rest)
      else if c =? 92 then
        match rest with
        | [] => None
        | e :: rest1 =>
            if e =? 117 then
              match rest1 with
              | h1 :: h2 :: h3 :: h4 :: rest2 =>
                  a ← hex_value h1; b ← hex_value h2; c' ← hex_value h3; d ← hex_value h4;
                  '(cs, rest3) ← parse_chars rest2;
                  Some ((((a * 16 + b) * 16 + c') * 16 + d) :: cs, rest3)
              | _ => None
              end
            else
              v ← escape_value e;
              '(cs, rest2) ← parse_chars rest1;
              Some (v :: cs, rest2)
        end
      else if c <? 0x20 then None
      else '(cs, rest1) ← parse_chars rest; Some (c :: cs, rest1)
  end.

(** The leading digits of [s], their number, their value after [acc]. *)
Fixpoint parse_digits (s : jsstring) (acc : Z) (n : Z) : Z * Z * jsstring :=
  match s with
  | c :: s' => if is_digit c then parse_digits s' (acc * 10 + (c - 48)) (n + 1) else (acc, n, s)
  | [] => (acc, n, [])
  end.

Definition parse_number (s : jsstring) : option (JsValue * jsstring) :=
  let '(negative, s1) :=
    match s with
    | c :: r => if c =? 45 then (true, r) else (false, s)
    | [] => (false, s)
    end in
  '(int, s2) ←
    match s1 with
    | c :: r =>
        if c =? 48 then Some (0, r)
        else if is_digit c then let '(v, _, r') := parse_digits s1 0 0 in Some (v, r')
        else None
    | [] => None
    end;
  '(m, e, s3) ←
    match s2 with
    | c :: r =>
        if c =? 46 then
          let '(v, n, r') := parse_digits r int 0 in
          if n =? 0 then None else Some (v, - n, r')
        else Some (int, 0, s2)
    | [] => Some (int, 0, s2)
    end;
  '(e', s4) ←
    match s3 with
    | c :: r =>
        if (c =? 101) || (c =? 69) then
          let '(minus, r1) :=
            match r with
            | g :: r0 => if g =? 45 then (true, r0) else if g =? 43 then (false, r0) else (false, r)
            | [] => (false, r)
            end in
          let '(v, n, r2) := parse_digits r1 0 0 in
          if n =? 0 then None else Some (if minus then e - v else e + v, r2)
        else Some (e, s3)
    | [] => Some (e, s3)
    end;
  Some (JNum (if negative then - m else m) e', s4).

(** A later member of the same name replaces the value of the earlier one. *)
Fixpoint set_field (k : jsstring) (v : JsValue) (fields : list (jsstring * JsValue))
  : list (jsstring * JsValue) :=
  match fields with
  | [] => [(k, v)]
  | (k', v') :: rest =>
      if bool_decide (k' = k) then (k', v) :: rest else (k', v') :: set_field k v rest
  end.

(** A value and what follows it.  [fuel] bounds the depth of the calls. *)
Fixpoint parse_value (fuel : nat) (s : jsstring) : option (JsValue * jsstring) :=
  match fuel with
  | O => None
  | S fuel' =>
      match skip_ws s with
      | [] => None
      | c :: rest =>
          if c =? 123 then
            match skip_ws rest with
            | c1 :: rest1 =>
                if c1 =? 125 then Some (JObject [], rest1) else parse_members fuel' rest []
            | [] => None
            end
          else if c =? 91 then
            match skip_ws rest with
            | c1 :: rest1 =>
                if c1 =? 93 then Some (JArray [], rest1) else parse_elements fuel' rest []
            | [] => None
            end
          else if c =? 34 then
            '(cs, rest1) ← parse_chars rest; Some (JString cs, rest1)
          else if startsWith (str "true") (c :: rest) then Some (JBool true, drop 3 rest)
          else if startsWith (str "false") (c :: rest) then Some (JBool false, drop 4 rest)
          else if startsWith (str "null") (c :: rest) then Some (JNull, drop 3 rest)
          else parse_number (c :: rest)
      end
  end
with parse_elements (fuel : nat) (s : jsstring) (acc : list JsValue)
  : option (JsValue * jsstring) :=
  match fuel with
  | O => None
  | S fuel' =>
      '(v, rest) ← parse_value fuel' s;
      match skip_ws rest with
      | c :: rest1 =>
          if c =? 44 then parse_elements fuel' rest1 (acc ++ [v])
          else if c =? 93 then Some (JArray (acc ++ [v]), rest1)
          else None
      | [] => None
      end
  end
with parse_members (fuel : nat) (s : jsstring) (acc : list (jsstring * JsValue))
  : option (JsValue * jsstring) :=
  match fuel with
  | O => None
  | S fuel' =>
      match skip_ws s with
      | q :: rest =>
          if q =? 34 then
            '(k, rest1) ← parse_chars rest;
            match skip_ws rest1 with
            | c :: rest2 =>
                if c =? 58 then
                  '(v, rest3) ← parse_value fuel' rest2;
                  match skip_ws rest3 with
                  | c' :: rest4 =>
                      if c' =? 44 then parse_members fuel' rest4 (set_field k v acc)
                      else if c' =? 125 then Some (JObject (set_field k v acc), rest4)
                      else None
                  | [] => None
                  end
                else None
            | [] => None
            end
          else None
      | [] => None
      end
  end.

(** A whole text: one value, white space around it, nothing else. *)
Definition json_parse (text : jsstring) : option JsValue :=
  '(v, rest) ← parse_value (2 * length text + 4) text;
  match skip_ws rest with
  | [] => Some v
  | _ :: _ => None
  end.

(** ** Sample streams *)

(** A token line whose content is the euro sign, three bytes in UTF-8. *)
Definition euro_line : list Z :=
  quoted "data: {'type':'token','content':'" ++ [0xE2; 0x82; 0xAC] ++ quoted "'}" ++ [10].

(** The bytes of scenario A: a token line and a done line, each followed by a
    blank line. *)
Definition scenario_A_bytes : list Z :=
  quoted "data: {'type':'token','content':'Hi'}" ++ [10; 10] ++
  quoted "data: {'type':'done'}" ++ [10; 10].

(** ** More names for the read loop *)

(** The loop state after the iterations for the chunks. *)
Fixpoint loop_end (st : LoopState) (chunks : list (list Z)) : LoopState :=
  match chunks with
  | [] => st
  | value :: rest => loop_end (read_lines st value).1 rest
  end.

(** The lines, each followed by its line feed. *)
Definition terminated (lines : list jsstring) : jsstring :=
  concat (map (fun line => line ++ [10]) lines).

Definition is_newline (c : Z) : bool := c =? 10.

(** A decoder state from which continuation bytes cannot complete the code
    point of a line feed: no sequence is open, or the code point read so far
    is positive, or it is zero with more than one byte still to come and a
    lower boundary of at least 0x90. *)
Definition utf8_good (d : Utf8Decoder) : Prop :=
  bytes_needed d = 0 ∨
  (0x80 ≤ lower_boundary d ∧ upper_boundary d ≤ 0xBF ∧
   (0 < code_point d ∨
    (code_point d = 0 ∧ bytes_seen d + 1 ≠ bytes_needed d ∧ 0x90 ≤ lower_boundary d))).

(** What holds of the loop state between iterations. *)
Definition loop_good (st : LoopState) : Prop :=
  utf8_good (utf8 (decoder st)) ∧ 10 ∉ buffer st.

End Stream.

Module Poller.

(** ** The types of lib/types/query.ts *)

Inductive RetrievalMethod : Type := basic | multi_query | hybrid.

Inductive JobStatus : Type := queued | running | completed | failed.

#[export] Instance JobStatus_eq_dec : EqDecision JobStatus.
Proof. solve_decision. Defined.

(** A JavaScript number: a double. *)
Abbreviation number := SpecFloat.spec_float.

(** The Number of an integer: the nearest double, ties to even, an infinity
    beyond the range of the doubles; the zero of a negative sign is [-0]. *)
Definition integer_Number (negative : bool) (n : Z) : number :=
  SpecFloat.binary_normalize 53 1024 (if negative then - n else n) 0 negative.

Record EvaluationJob : Type := {
  job_id : string;
  dataset_id : string;
  retrieval_method : RetrievalMethod;
  k_values : list number;
  status : JobStatus;
  progress : option number;
  created_at : string;
  started_at : option string;
  completed_at : option string;
  job_error : option string          (* the field [error] of a job *)
}.

(** [Record<string, number>]. *)
Abbreviation metrics := (list (string * number)).

Record AggregateMetrics : Type := {
  ndcg : metrics;
  map_ : metrics;                    (* the field [map] *)
  mrr : metrics;
  total_queries : number
}.

Record PerQueryMetrics : Type := {
  query : string;
  query_ndcg : metrics;
  query_map : metrics;
  query_mrr : metrics;
  retrieved_docs : list string;
  expected_docs : list string
}.

Record EvaluationResults : Type := {
  results_job_id : string;
  results_dataset_id : string;
  dataset_name : string;
  results_retrieval_method : RetrievalMethod;
  results_k_values : list number;
  aggregate_metrics : AggregateMetrics;
  per_query_metrics : list PerQueryMetrics;
  results_created_at : string
}.

(** ** The store and its environment *)

(** What [setInterval] returns. *)
Abbreviation TimerId := positive.

(** The state of the store that polling reads or writes; the two dataset
    fields are left out, no polling action touches them. *)
Record EvaluationState : Type := {
  jobs : list EvaluationJob;
  currentResults : option EvaluationResults;
  isLoading : bool;
  error : option string;
  pollingIntervals : gmap string TimerId
}.

(** A call of the [ragTesterClient] whose promise is not settled yet. *)
Abbreviation CallId := positive.

Inductive Request : Type :=
  | getJobStatus (jobId : string)
  | getJobResults (jobId : string).

#[export] Instance Request_eq_dec : EqDecision Request.
Proof. solve_decision. Defined.

(** How a promise of the client settles: with a value, or with an [Error] of
    the given message. *)
Inductive Settled (A : Type) : Type :=
  | resolved (value : A)
  | rejected (message : string).
Arguments resolved {A} value.
Arguments rejected {A} message.

(** The store together with what its closures live in: the interval timers
    that were set and not cleared, each with the [jobId] and the period of
    its callback; the calls in flight, each with the [jobId] its continuation
    closes over: the [getJobStatus] calls of ticks, those of [fetchJob], the
    [getJobResults] calls; the requests sent so far, oldest first; the
    errors given to [console.error]. *)
Record World : Type := {
  store : EvaluationState;
  timers : gmap TimerId (string * Z);
  next_timer : TimerId;
  status_calls : gmap CallId string;
  job_calls : gmap CallId string;
  results_calls : gmap CallId string;
  next_call : CallId;
  requests : list Request;
  console_errors : list string
}.

Definition initial_state : EvaluationState :=
  {| jobs := []; currentResults := None; isLoading := false; error := None;
     pollingIntervals := ∅ |}.

Definition initial_world : World :=
  {| store := initial_state; timers := ∅; next_timer := 1%positive;
     status_calls := ∅; job_calls := ∅; results_calls := ∅; next_call := 1%positive;
     requests := []; console_errors := [] |}.

(** [set(...)] of the store inside a world. *)
Definition set_store (f : EvaluationState -> EvaluationState) (w : World) : World :=
  {| store := f (store w); timers := timers w; next_timer := next_timer w;
     status_calls := status_calls w; job_calls := job_calls w;
     results_calls := results_calls w;
     next_call := next_call w; requests := requests w;
     console_errors := console_errors w |}.

Definition set_pollingIntervals (m : gmap string TimerId) (s : EvaluationState)
  : EvaluationState :=
  {| jobs := jobs s; currentResults := currentResults s; isLoading := isLoading s;
     error := error s; pollingIntervals := m |}.

Definition set_jobs (js : list EvaluationJob) (s : EvaluationState) : EvaluationState :=
  {| jobs := js; currentResults := currentResults s; isLoading := isLoading s;
     error := error s; pollingIntervals := pollingIntervals s |}.

Definition set_loading (results : option EvaluationResults) (loading : bool)
    (err : option string) (s : EvaluationState) : EvaluationState :=
  {| jobs := jobs s; currentResults := results; isLoading := loading;
     error := err; pollingIntervals := pollingIntervals s |}.

Definition set_timers (ts : gmap TimerId (string * Z)) (next : TimerId) (w : World) : World :=
  {| store := store w; timers := ts; next_timer := next;
     status_calls := status_calls w; job_calls := job_calls w;
     results_calls := results_calls w;
     next_call := next_call w; requests := requests w;
     console_errors := console_errors w |}.

(** ** The actions *)

(** [stopPolling(jobId)]: an interval id is truthy, so the branch is taken
    whenever the map has the job. *)
Definition stopPolling (jobId : string) (w : World) : World :=
  match pollingIntervals (store w) !! jobId with
  | Some intervalId =>
      set_store (set_pollingIntervals (delete jobId (pollingIntervals (store w))))
        (set_timers (delete intervalId (timers w)) (next_timer w) w)
  | None => w
  end.

(** [stopAllPolling()]: [clearInterval] on every value of the map, then an
    empty map. *)
Definition stopAllPolling (w : World) : World :=
  set_store (set_pollingIntervals ∅)
    (set_timers
       (foldr (fun entry ts => delete entry.2 ts) (timers w)
          (map_to_list (pollingIntervals (store w))))
       (next_timer w) w).

(** [startPolling(jobId, intervalMs)]: [setInterval] returns an id that no
    timer has had before. *)
Definition startPolling (jobId : string) (intervalMs : Z) (w : World) : World :=
  if decide (is_Some (pollingIntervals (store w) !! jobId)) then w
  else
    let intervalId := next_timer w in
    set_store (set_pollingIntervals (<[jobId := intervalId]> (pollingIntervals (store w))))
      (set_timers (<[intervalId := (jobId, intervalMs)]> (timers w)) (Pos.succ intervalId) w).

(** [fetchResults(jobId)] up to its [await]. *)
Definition fetchResults (jobId : string) (w : World) : World :=
  let s := store w in
  {| store := set_loading (currentResults s) true None s;
     timers := timers w; next_timer := next_timer w;
     status_calls := status_calls w; job_calls := job_calls w;
     results_calls := <[next_call w := jobId]> (results_calls w);
     next_call := Pos.succ (next_call w);
     requests := requests w ++ [getJobResults jobId];
     console_errors := console_errors w |}.

(** [fetchResults] after its [await]. *)
Definition results_settle (call : CallId) (reply : Settled EvaluationResults) (w : World)
  : World :=
  match results_calls w !! call with
  | None => w
  | Some _ =>
      let s := store w in
      {| store := match reply with
                  | resolved results => set_loading (Some results) false (error s) s
                  | rejected message => set_loading (currentResults s) false (Some message) s
                  end;
         timers := timers w; next_timer := next_timer w;
         status_calls := status_calls w; job_calls := job_calls w;
         results_calls := delete call (results_calls w);
         next_call := next_call w; requests := requests w;
         console_errors := console_errors w |}
  end.

(** The callback of [setInterval] up to its [await]: a cleared timer does not
    fire; a live one sends [getJobStatus(jobId)]. *)
Definition tick (intervalId : TimerId) (w : World) : World :=
  match timers w !! intervalId with
  | None => w
  | Some (jobId, _) =>
      {| store := store w; timers := timers w; next_timer := next_timer w;
         status_calls := <[next_call w := jobId]> (status_calls w);
         job_calls := job_calls w;
         results_calls := results_calls w;
         next_call := Pos.succ (next_call w);
         requests := requests w ++ [getJobStatus jobId];
         console_errors := console_errors w |}
  end.

(** [fetchJob(jobId)] up to its [await]: it sends [getJobStatus(jobId)] when
    it is called; no timer is involved. *)
Definition fetchJob (jobId : string) (w : World) : World :=
  {| store := store w; timers := timers w; next_timer := next_timer w;
     status_calls := status_calls w;
     job_calls := <[next_call w := jobId]> (job_calls w);
     results_calls := results_calls w;
     next_call := Pos.succ (next_call w);
     requests := requests w ++ [getJobStatus jobId];
     console_errors := console_errors w |}.

(** [fetchJob] after its [await]: the job record is replaced, or the error
    logged; it stops no polling and fetches no results. *)
Definition fetchJob_settle (call : CallId) (reply : Settled EvaluationJob) (w : World)
  : World :=
  match job_calls w !! call with
  | None => w
  | Some jobId =>
      {| store :=
           match reply with
           | resolved job =>
               set_jobs (map (fun j => if decide (job_id j = jobId) then job else j)
                           (jobs (store w))) (store w)
           | rejected _ => store w
           end;
         timers := timers w; next_timer := next_timer w;
         status_calls := status_calls w;
         job_calls := delete call (job_calls w);
         results_calls := results_calls w;
         next_call := next_call w; requests := requests w;
         console_errors := match reply with
                           | resolved _ => console_errors w
                           | rejected message => console_errors w ++ [message]
                           end |}
  end.

Definition is_terminal (s : JobStatus) : bool :=
  bool_decide (s = completed) || bool_decide (s = failed).

(** The callback after its [await], for the call that settles. *)
Definition status_settle (call : CallId) (reply : Settled EvaluationJob) (w : World)
  : World :=
  match status_calls w !! call with
  | None => w
  | Some jobId =>
      let w0 :=
        {| store := store w; timers := timers w; next_timer := next_timer w;
           status_calls := delete call (status_calls w);
           job_calls := job_calls w;
           results_calls := results_calls w;
           next_call := next_call w; requests := requests w;
           console_errors := console_errors w |} in
      match reply with
      | resolved job =>
          let w1 :=
            set_store (fun s =>
              set_jobs (map (fun j => if decide (job_id j = jobId) then job else j) (jobs s)) s)
              w0 in
          if is_terminal (status job) then
            let w2 := stopPolling jobId w1 in
            if decide (status job = completed) then fetchResults jobId w2 else w2
          else w1
      | rejected message =>
          stopPolling jobId
            {| store := store w0; timers := timers w0; next_timer := next_timer w0;
               status_calls := status_calls w0; job_calls := job_calls w0;
               results_calls := results_calls w0;
               next_call := next_call w0; requests := requests w0;
               console_errors := console_errors w0 ++ [message] |}
      end
  end.

(** ** Runs *)

(** What can happen to the store, one event of the event loop at a time. *)
Inductive Event : Type :=
  | StartPolling (jobId : string) (intervalMs : Z)
  | StopPolling (jobId : string)
  | StopAllPolling
  | FetchJob (jobId : string)
  | FetchResults (jobId : string)
  | Tick (intervalId : TimerId)
  | StatusSettles (call : CallId) (reply : Settled EvaluationJob)
  | JobSettles (call : CallId) (reply : Settled EvaluationJob)
  | ResultsSettles (call : CallId) (reply : Settled EvaluationResults)
  | OtherAction (js : list EvaluationJob) (results : option EvaluationResults)
      (loading : bool) (err : option string).

Definition step (w : World) (ev : Event) : World :=
  match ev with
  | StartPolling jobId intervalMs => startPolling jobId intervalMs w
  | StopPolling jobId => stopPolling jobId w
  | StopAllPolling => stopAllPolling w
  | FetchJob jobId => fetchJob jobId w
  | FetchResults jobId => fetchResults jobId w
  | Tick intervalId => tick intervalId w
  | StatusSettles call reply => status_settle call reply w
  | JobSettles call reply => fetchJob_settle call reply w
  | ResultsSettles call reply => results_settle call reply w
  | OtherAction js results loading err =>
      set_store (fun s => set_loading results loading err (set_jobs js s)) w
  end.

Definition run (events : list Event) : World := foldl step initial_world events.

(** The requests of a kind sent for a job. *)
Definition sent (r : Request) (w : World) : nat :=
  length (filter (fun r' => r' = r) (requests w)).

(** The live timers whose callback polls the job. *)
Definition handles (jobId : string) (w : World) : gmap TimerId (string * Z) :=
  filter (fun timer => timer.2.1 = jobId) (timers w).

(** Whether an event is a call of [startPolling] for the job. *)
Definition restarts (jobId : string) (ev : Event) : bool :=
  match ev with
  | StartPolling j _ => bool_decide (j = jobId)
  | _ => false
  end.

(** Whether an event is a call of [fetchJob], or of [fetchResults], for the
    job: a call that a page makes, not the [fetchResults] of a tick. *)
Definition fetches_job (jobId : string) (ev : Event) : bool :=
  match ev with
  | FetchJob j => bool_decide (j = jobId)
  | _ => false
  end.


(** How many of the events are such calls. *)
Definition fetchJob_calls (jobId : string) (events : list Event) : nat :=
  length (filter (fetches_job jobId) events).



(** ** Consistency of handles and timers *)

(** Every entry of [pollingIntervals] names a live timer of its job, every
    live timer is the entry of its job, and timer ids are below the next. *)
Record consistent (w : World) : Prop := {
  handle_timer : ∀ jobId t,
    pollingIntervals (store w) !! jobId = Some t → ∃ ms, timers w !! t = Some (jobId, ms);
  timer_handle : ∀ t jobId ms,
    timers w !! t = Some (jobId, ms) → pollingIntervals (store w) !! jobId = Some t;
  timer_below_next : ∀ t, is_Some (timers w !! t) → (t < next_timer w)%positive
}.

(** ** Sample runs *)

Definition sample_job (id : string) (s : JobStatus) : EvaluationJob :=
  {| job_id := id; dataset_id := "dataset-1"; retrieval_method := hybrid;
     k_values := [integer_Number false 1; integer_Number false 5];
     status := s; progress := None;
     created_at := "2025-01-01T00:00:00Z"; started_at := None; completed_at := None;
     job_error := None |}.

Definition two_jobs_polled : list Event :=
  [OtherAction [sample_job "job-1" queued; sample_job "job-2" queued] None false None;
   StartPolling "job-1" 2000; StartPolling "job-2" 2000; Tick 1; Tick 2].

(** ** More actions *)

(** [reset()]; the dataset fields, which it also clears, are not modelled. *)
Definition reset (w : World) : World :=
  set_store (fun _ => initial_state) (stopAllPolling w).

Definition is_tick (ev : Event) : bool :=
  match ev with Tick _ => true | _ => false end.

Definition starts_polling (ev : Event) : bool :=
  match ev with StartPolling _ _ => true | _ => false end.

Record EvaluationRequest : Type := {
  request_dataset_id : string;
  request_retrieval_method : RetrievalMethod;
  request_k_values : list number;
  rag_service_url : option string
}.

(** What [ragTesterClient.submitEvaluation] resolves to. *)
Record SubmitResponse : Type := {
  response_job_id : string;
  response_status : string;
  response_created_at : string
}.

(** The job record that [submitEvaluation] builds. *)
Definition submitted_job (params : EvaluationRequest) (response : SubmitResponse)
  : EvaluationJob :=
  {| job_id := response_job_id response;
     dataset_id := request_dataset_id params;
     retrieval_method := request_retrieval_method params;
     k_values := request_k_values params;
     status := queued;
     progress := None;
     created_at := response_created_at response;
     started_at := None; completed_at := None; job_error := None |}.

(** [submitEvaluation(params)] after its [await]: the new store, and what the
    promise it returns settles to. *)
Definition submitEvaluation_settle (params : EvaluationRequest)
    (reply : Settled SubmitResponse) (s : EvaluationState)
  : EvaluationState * Settled string :=
  match reply with
  | resolved response =>
      (set_loading (currentResults s) false (error s)
         (set_jobs (submitted_job params response :: jobs s) s),
       resolved (response_job_id response))
  | rejected message =>
      (set_loading (currentResults s) false (Some message) s, rejected message)
  end.

(** [handleSubmit] of the run page after [submitEvaluation] settles: it
    starts polling the job it was given, with the default interval. *)
Definition handleSubmit_settle (params : EvaluationRequest)
    (reply : Settled SubmitResponse) (w : World) : World :=
  let '(s, result) := submitEvaluation_settle params reply (store w) in
  let w1 := set_store (fun _ => s) w in
  match result with
  | resolved jobId => startPolling jobId 2000 w1
  | rejected _ => w1
  end.

(** One round of polling in which the reply comes before the next tick: the
    timer fires, and the status request it sends settles. *)
Definition poll_round (t : TimerId) (reply : Settled EvaluationJob) (w : World) : World :=
  status_settle (next_call w) reply (tick t w).

Definition poll_rounds (t : TimerId) (replies : list (Settled EvaluationJob)) (w : World)
  : World :=
  foldl (fun w reply => poll_round t reply w) w replies.

(** A reply with a job that is queued or running. *)
Definition still_running (reply : Settled EvaluationJob) : bool :=
  match reply with
  | resolved job => negb (is_terminal (status job))
  | rejected _ => false
  end.

End Poller.

(** * The chat route's message text and the run page's form *)

Module Pages.
Import Stream.

(** A part of a chat message: its [type] and, where it has one, its [text]. *)
Record MessagePart : Type := {
  part_type : jsstring;
  part_text : option jsstring
}.

(** [items.join('\n')]: an undefined item counts as the empty string. *)
Fixpoint join_nl (items : list (option jsstring)) : jsstring :=
  match items with
  | [] => []
  | [item] => default [] item
  | item :: rest => default [] item ++ 10 :: join_nl rest
  end.

(** [message.parts.filter((part) => part.type === 'text').map((part) => part.text)]. *)
Definition text_parts (parts : list MessagePart) : list (option jsstring) :=
  map part_text (filter (fun part => part_type part = str "text") parts).

(** [userMessageText] of the POST handler. *)
Definition userMessageText (parts : list MessagePart) : jsstring :=
  join_nl (text_parts parts).

(** [s.split(sep)] for a separator of one code unit. *)
Fixpoint split_on (sep : Z) (s : jsstring) : list jsstring :=
  match s with
  | [] => [[]]
  | c :: s' =>
      if c =? sep then [] :: split_on sep s'
      else match split_on sep s' with
           | l :: ls => (c :: l) :: ls
           | [] => [[c]]
           end
  end.

(** The value of a digit in a radix of 10 or 16. *)
Definition digit_value (radix c : Z) : option Z :=
  v ← hex_value c; if v <? radix then Some v else None.

(** The value of the leading digits of [s] after [acc]; [seen] tells whether
    a digit was read. *)
Fixpoint leading_digits (radix : Z) (s : jsstring) (acc : Z) (seen : bool) : option Z :=
  match s with
  | c :: s' =>
      match digit_value radix c with
      | Some v => leading_digits radix s' (acc * radix + v) true
      | None => if seen then Some acc else None
      end
  | [] => if seen then Some acc else None
  end.

(** What [parseInt(s)] without a radix reads of [s]: whether a minus sign
    comes first, and the value of the digits, if there is any digit. *)
Definition read_integer (s : jsstring) : option (bool * Z) :=
  let s1 := trimStart s in
  let '(negative, s2) :=
    match s1 with
    | c :: r => if c =? 45 then (true, r) else if c =? 43 then (false, r) else (false, s1)
    | [] => (false, s1)
    end in
  let '(radix, s3) :=
    match s2 with
    | z :: x :: r => if (z =? 48) && ((x =? 120) || (x =? 88)) then (16, r) else (10, s2)
    | _ => (10, s2)
    end in
  n ← leading_digits radix s3 0 false; Some (negative, n).

(** [parseInt(s)]: NaN when no digit is read, else the Number of the integer
    read.  All the digits count here; the standard allows an engine to take
    the decimal digits after the twentieth for zeros. *)
Definition parseInt (s : jsstring) : Poller.number :=
  match read_integer s with
  | Some (negative, n) => Poller.integer_Number negative n
  | None => SpecFloat.S754_nan
  end.

Definition isNaN (v : Poller.number) : bool :=
  match v with
  | SpecFloat.S754_nan => true
  | _ => false
  end.

(** [v > 0]. *)
Definition gt_zero (v : Poller.number) : bool :=
  match SpecFloat.SFcompare v (SpecFloat.S754_zero false) with
  | Some Gt => true
  | _ => false
  end.

(** [parseKValues(input)] of the run page:
    [input.split(",").map((v) => parseInt(v.trim())).filter((v) => !isNaN(v) && v > 0)]. *)
Definition parseKValues (input : jsstring) : list Poller.number :=
  filter (fun v => negb (isNaN v) && gt_zero v)
         (map (fun v => parseInt (trim v)) (split_on 44 input)).

(** The checks of [validate] and the parameters that [handleSubmit] then
    submits: an error message, or the parameters. *)
Definition handleSubmit_params (selectedDataset : string)
    (retrievalMethod : Poller.RetrievalMethod) (kValues : jsstring)
  : string + Poller.EvaluationRequest :=
  if bool_decide (selectedDataset = ""%string) then inl "Please select a test dataset"%string
  else if bool_decide (length (parseKValues kValues) = 0%nat)
  then inl "Please enter valid k values (e.g., 3,5,10)"%string
  else inr {| Poller.request_dataset_id := selectedDataset;
              Poller.request_retrieval_method := retrievalMethod;
              Poller.request_k_values := parseKValues kValues;
              Poller.rag_service_url := None |}.

End Pages.

(** * Properties of the stream transformer *)

Module StreamFacts.
Import Stream.

(** ** Lines *)

Lemma split_nl_nonempty (s : jsstring) : split_nl s ≠ [].
Proof.
  induction s as [|c s IH]; simpl; [done|].
  destruct (c =? 10); [done|]. destruct (split_nl s); done.
Qed.

Lemma split_nl_parts (s : jsstring) : split_nl s = full_lines s ++ [last_line s].
Proof.
  unfold full_lines, last_line.
  destruct (split_nl s) as [|l ls] eqn:E using rev_ind.
  - by destruct (split_nl_nonempty s).
  - by rewrite removelast_last, last_snoc.
Qed.

Lemma split_nl_app (a b : jsstring) :
  split_nl (a ++ b) = full_lines a ++ split_nl (last_line a ++ b).
Proof.
  induction a as [|c a IH]; [done|].
  unfold full_lines, last_line in *. simpl.
  destruct (c =? 10) eqn:Ec.
  - rewrite IH. destruct (split_nl a) eqn:E; [by destruct (split_nl_nonempty a)|].
    reflexivity.
  - rewrite IH. destruct (split_nl a) as [|l [|l' ls]] eqn:E.
    + by destruct (split_nl_nonempty a).
    + simpl. rewrite Ec.
      destruct (split_nl (l ++ b)) eqn:E'; [by destruct (split_nl_nonempty (l ++ b))|].
      reflexivity.
    + reflexivity.
Qed.

Lemma last_line_no_nl (s : jsstring) : 10 ∉ last_line s.
Proof.
  unfold last_line. induction s as [|c s IH]; simpl.
  - apply not_elem_of_nil.
  - destruct (c =? 10) eqn:Ec.
    + destruct (split_nl s) eqn:E; [by destruct (split_nl_nonempty s)|]. exact IH.
    + destruct (split_nl s) as [|l [|l' ls]] eqn:E.
      * by destruct (split_nl_nonempty s).
      * simpl in *. rewrite not_elem_of_cons. split; [lia|done].
      * exact IH.
Qed.

Lemma split_nl_no_nl (s : jsstring) : 10 ∉ s → split_nl s = [s].
Proof.
  induction s as [|c s IH]; [done|].
  rewrite not_elem_of_cons. intros [Hc Hs]. simpl.
  destruct (Z.eqb_spec c 10); [congruence|]. by rewrite IH.
Qed.

Lemma full_lines_app (a b : jsstring) :
  full_lines (a ++ b) = full_lines a ++ full_lines (last_line a ++ b).
Proof.
  unfold full_lines at 1. rewrite split_nl_app.
  rewrite (split_nl_parts (last_line a ++ b)), app_assoc.
  by rewrite removelast_last.
Qed.

Lemma last_line_app (a b : jsstring) :
  last_line (a ++ b) = last_line (last_line a ++ b).
Proof.
  unfold last_line at 1. rewrite split_nl_app.
  rewrite (split_nl_parts (last_line a ++ b)), app_assoc.
  by rewrite last_snoc.
Qed.

(** ** Decoding *)

Lemma utf8_run_app (d : Utf8Decoder) (a b : list Z) :
  utf8_run d (a ++ b) =
  let '(d1, out1) := utf8_run d a in
  let '(d2, out2) := utf8_run d1 b in (d2, out1 ++ out2).
Proof.
  revert d. induction a as [|x a IH]; intros d; simpl.
  - by destruct (utf8_run d b).
  - destruct (utf8_handler d x) as [d1 o1]. rewrite IH.
    destruct (utf8_run d1 a) as [d2 o2]. destruct (utf8_run d2 b) as [d3 o3].
    by rewrite app_assoc.
Qed.

Lemma serialize_app (seen : bool) (x y : list Z) :
  serialize seen (x ++ y) =
  let '(seen1, kept1) := serialize seen x in
  let '(seen2, kept2) := serialize seen1 y in (seen2, kept1 ++ kept2).
Proof.
  destruct x as [|c x]; simpl.
  - by destruct (serialize seen y).
  - destruct y as [|c' y]; simpl.
    + rewrite !app_nil_r. by destruct (negb seen && (c =? 65279)).
    + by destruct (negb seen && (c =? 65279)).
Qed.

Lemma decode_app (dec : TextDecoder) (a b : list Z) :
  decode dec (a ++ b) =
  let '(dec1, text1) := decode dec a in
  let '(dec2, text2) := decode dec1 b in (dec2, text1 ++ text2).
Proof.
  unfold decode. rewrite utf8_run_app.
  destruct (utf8_run (utf8 dec) a) as [d1 o1].
  destruct (serialize (BOM_seen dec) o1) as [s1 k1] eqn:E1. simpl.
  destruct (utf8_run d1 b) as [d2 o2].
  rewrite serialize_app, E1.
  destruct (serialize s1 o2) as [s2 k2].
  by rewrite map_app, concat_app.
Qed.

Lemma read_lines_app (st : LoopState) (a b : list Z) :
  read_lines st (a ++ b) =
  let '(st1, lines1) := read_lines st a in
  let '(st2, lines2) := read_lines st1 b in (st2, lines1 ++ lines2).
Proof.
  unfold read_lines. rewrite decode_app.
  destruct (decode (decoder st) a) as [dec1 t1]. simpl.
  destruct (decode dec1 b) as [dec2 t2].
  rewrite app_assoc.
  change (removelast (split_nl ((buffer st ++ t1) ++ t2))) with (full_lines ((buffer st ++ t1) ++ t2)).
  change (default [] (last (split_nl ((buffer st ++ t1) ++ t2)))) with (last_line ((buffer st ++ t1) ++ t2)).
  by rewrite full_lines_app, last_line_app.
Qed.

Lemma read_lines_buffer (st : LoopState) (value : list Z) :
  10 ∉ buffer (read_lines st value).1.
Proof.
  unfold read_lines. destruct (decode (decoder st) value) as [dec text]. simpl.
  apply last_line_no_nl.
Qed.

(** The lines of a chunk sequence are those of its concatenation. *)
Lemma decoded_lines_concat (st : LoopState) (chunks : list (list Z)) :
  10 ∉ buffer st →
  decoded_lines st chunks = (read_lines st (concat chunks)).2.
Proof.
  revert st. induction chunks as [|value rest IH]; intros st Hst; simpl.
  - unfold read_lines. destruct (decode (decoder st) []) as [dec text] eqn:E.
    unfold decode in E. simpl in E. injection E as _ <-. simpl.
    by rewrite app_nil_r, split_nl_no_nl.
  - rewrite read_lines_app.
    pose proof (read_lines_buffer st value) as Hb.
    destruct (read_lines st value) as [st1 l1]. simpl in *.
    rewrite (IH st1 Hb). by destruct (read_lines st1 (concat rest)).
Qed.

Section WithParser.
Variable JSON_parse : jsstring → option JsValue.

Lemma process_lines_app (l1 l2 : list jsstring) :
  process_lines JSON_parse (l1 ++ l2) =
  ((process_lines JSON_parse l1).1 ++ (process_lines JSON_parse l2).1,
   (process_lines JSON_parse l1).2 ++ (process_lines JSON_parse l2).2).
Proof.
  induction l1 as [|l l1 IH]; simpl.
  - by destruct (process_lines JSON_parse l2).
  - rewrite IH. destruct (process_line JSON_parse l) as [e w].
    destruct (process_lines JSON_parse l1) as [e1 w1]. simpl.
    by rewrite !app_assoc.
Qed.

Lemma read_loop_lines (st : LoopState) (chunks : list (list Z)) :
  read_loop JSON_parse st chunks = process_lines JSON_parse (decoded_lines st chunks).
Proof.
  revert st. induction chunks as [|value rest IH]; intros st; simpl; [done|].
  destruct (read_lines st value) as [st1 l1].
  rewrite process_lines_app, IH.
  destruct (process_lines JSON_parse l1) as [e1 w1].
  by destruct (process_lines JSON_parse (decoded_lines st1 rest)).
Qed.

(** C2. Two chunk sequences with the same bytes yield the same lines and
    the same returned stream, wherever the chunks are cut: inside a line or
    inside the bytes of one character. *)
Theorem chunk_boundary_independence (chunks1 chunks2 : list (list Z)) (e : ReadEnd) :
  concat chunks1 = concat chunks2 →
  decoded_lines loop_start chunks1 = decoded_lines loop_start chunks2 ∧
  transformAgentStreamToUIStream JSON_parse {| chunks := chunks1; ending := e |} =
  transformAgentStreamToUIStream JSON_parse {| chunks := chunks2; ending := e |}.
Proof.
  intros Hbytes.
  assert (decoded_lines loop_start chunks1 = decoded_lines loop_start chunks2) as Hlines.
  { rewrite !decoded_lines_concat by apply not_elem_of_nil. by rewrite Hbytes. }
  split; [done|].
  unfold transformAgentStreamToUIStream. simpl.
  by rewrite !read_loop_lines, Hlines.
Qed.
End WithParser.


(** ** The switch *)

#[local] Arguments str : simpl never.

Lemma count_app {A} (p : A → bool) (l1 l2 : list A) :
  count p (l1 ++ l2) = (count p l1 + count p l2)%nat.
Proof. induction l1 as [|x l1 IH]; simpl; [done|]. rewrite IH. lia. Qed.

Lemma normalize_app (evs1 evs2 : list BackendEvent) :
  normalize (evs1 ++ evs2) = normalize evs1 ++ normalize evs2.
Proof. unfold normalize. by rewrite map_app, concat_app. Qed.

Lemma normalize_cons (ev : BackendEvent) (evs : list BackendEvent) :
  normalize (ev :: evs) = translate ev ++ normalize evs.
Proof. reflexivity. Qed.

(** What the switch does, by the type of the event. *)
Lemma translate_cases (ev : BackendEvent) :
  (has_type "token" ev = true ∧
     translate ev = if appends ev then [TextDelta (event_content ev)] else []) ∨
  (has_type "done" ev = true ∧ has_type "token" ev = false ∧ translate ev = [finish_stop]) ∨
  (has_type "sources" ev = true ∧ has_type "token" ev = false ∧ has_type "done" ev = false ∧
     (translate ev = [] ∨ ∃ l n, translate ev = [Data l n])) ∨
  (has_type "token" ev = false ∧ has_type "done" ev = false ∧ translate ev = []).
Proof.
  unfold translate, switch_data, has_type, event_type, appends, event_content.
  destruct ev as [| | | | |fields]; simpl; auto 10.
  destruct (lookup_field (str "type") fields) as [[| | |s| |]|]; simpl; auto 10.
  destruct (bool_decide (s = str "token")) eqn:Et.
  { left. split; [done|]. unfold append_text.
    destruct (lookup_field (str "content") fields) as [v|]; [|done].
    by destruct (to_string_throws v). }
  destruct (bool_decide (s = str "classification")) eqn:Ec.
  { apply bool_decide_eq_true in Ec as ->. auto 10. }
  destruct (bool_decide (s = str "sources")) eqn:Es.
  { apply bool_decide_eq_true in Es as ->. right. right. left.
    repeat split; try done.
    unfold sources_event.
    destruct (truthy (lookup_field (str "sources") fields)); [|eauto].
    destruct (lookup_field (str "sources") fields) as [[| | | |l|]|]; simpl; auto.
    destruct (mapM map_source l); simpl; eauto. }
  destruct (bool_decide (s = str "done")) eqn:Ed; auto 10.
Qed.

Lemma count_finish_translate (ev : BackendEvent) :
  count is_finish (translate ev) = if has_type "done" ev then 1%nat else 0%nat.
Proof.
  destruct (translate_cases ev) as
    [[Ht ->]|[(Hd & Ht & ->)|[(Hs & Ht & Hd & [->|(l & n & ->)])|(Ht & Hd & ->)]]];
    rewrite ?Hd; try done.
  assert (count is_finish (if appends ev then [TextDelta (event_content ev)] else []) = 0%nat)
    as -> by by destruct (appends ev).
  destruct (has_type "done" ev) eqn:Hd; [|done].
  unfold has_type in *. destruct (event_type ev) as [[| | |s| |]|]; try done.
  simpl in *. apply bool_decide_eq_true in Ht as ->. done.
Qed.


Lemma count_finish_normalize (evs : list BackendEvent) :
  count is_finish (normalize evs) = count (has_type "done") evs.
Proof.
  induction evs as [|ev evs IH]; [done|].
  rewrite normalize_cons, count_app, count_finish_translate, IH. done.
Qed.



Lemma concat_texts_strings (texts : list jsstring) :
  concat_texts (map (fun s => Some (JString s)) texts) = Some (concat texts).
Proof. induction texts as [|s texts IH]; simpl; [done|]. by rewrite IH. Qed.

(** C1, as amended. The switch enqueues one finish event for each done
    event, so a sequence with at most one done event yields at most one
    finish event; the loop keeps no flag that a done event was seen, and the
    events after a done event are translated like those before it. *)
Theorem finish_per_done (evs after : list BackendEvent) :
  count is_finish (normalize evs) = count (has_type "done") evs ∧
  normalize (evs ++ done_event :: after) = normalize evs ++ finish_stop :: normalize after.
Proof.
  split; [apply count_finish_normalize|]. by rewrite normalize_app.
Qed.

(** C1 as stated fails: two done events yield two finish events, and the
    token between them is not dropped. *)
Lemma finish_not_single :
  let evs := [done_event; token_event (str "late"); done_event] in
  normalize evs = [finish_stop; TextDelta (Some (JString (str "late"))); finish_stop] ∧
  ¬ (count is_finish (normalize evs) ≤ 1)%nat.
Proof. split; [reflexivity|]. vm_compute. lia. Qed.

(** C3: the switch has no case for an error event.  It enqueues nothing for
    it, does not end the stream, and goes on with the events that follow. *)
Theorem error_event_dropped (message : jsstring) (rest : list BackendEvent) :
  switch_data (error_event message) = Normal [] ∧
  normalize (error_event message :: rest) = normalize rest.
Proof. split; reflexivity. Qed.




#[local] Arguments slice : simpl never.

(** ** Lines of the stream *)

Lemma trimStart_nil (s : jsstring) :
  trimStart s = [] ↔ Forall (fun c => is_js_space c = true) s.
Proof.
  induction s as [|c s IH]; simpl.
  - split; [constructor|done].
  - destruct (is_js_space c) eqn:Ec.
    + rewrite IH. split; [by constructor|by inversion 1].
    + split; [done|]. inversion 1; congruence.
Qed.

Lemma trimStart_spaces (s : jsstring) :
  Forall (fun c => is_js_space c = true) (trimStart s) → trimStart s = [].
Proof.
  induction s as [|c s IH]; simpl; [done|].
  destruct (is_js_space c) eqn:Ec; [done|]. inversion 1; congruence.
Qed.

(** A line is blank for the loop when it holds white space only. *)
Lemma trim_nil (s : jsstring) :
  trim s = [] ↔ Forall (fun c => is_js_space c = true) s.
Proof.
  unfold trim. split.
  - intros H. apply (f_equal reverse) in H. rewrite reverse_involutive in H.
    change (reverse []) with (@nil Z) in H.
    apply trimStart_nil, Forall_reverse in H. rewrite reverse_involutive in H.
    apply trimStart_nil. by apply trimStart_spaces.
  - intros H. apply trimStart_nil in H. rewrite H. reflexivity.
Qed.

Lemma data_line_not_blank (payload : jsstring) :
  bool_decide (trim (str "data: " ++ payload) = []) = false.
Proof.
  apply bool_decide_eq_false. rewrite trim_nil. inversion 1 as [|? ? Hd]. done.
Qed.

Lemma startsWith_spec (p s : jsstring) :
  startsWith p s = true ↔ ∃ r, s = p ++ r.
Proof.
  revert s. induction p as [|a p IH]; intros s; simpl.
  - split; [by exists s|done].
  - destruct s as [|b s].
    + split; [done|]. by intros [r ?].
    + rewrite andb_true_iff, Z.eqb_eq, IH. split.
      * intros [-> [r ->]]. by exists r.
      * intros [r [= -> ->]]. eauto.
Qed.

(** A line with the prefix of a data line is neither blank nor a comment. *)
Lemma data_prefix_not_skipped (line : jsstring) :
  startsWith (str "data: ") line = true →
  bool_decide (trim line = []) || startsWith (str ":") line = false.
Proof.
  intros [payload ->]%startsWith_spec. by rewrite data_line_not_blank.
Qed.

(** The switch on a token event. *)
Lemma token_switch (ev : BackendEvent) {A} (k : list UIEvent → A) (h : JsError → A) :
  has_type "token" ev = true →
  match switch_data ev with Normal events => k events | Throw e => h e end =
  if appends ev then k [TextDelta (event_content ev)] else h TypeError.
Proof.
  unfold switch_data, has_type, event_type, appends, event_content.
  destruct ev as [| | | | |fields]; simpl; try done.
  intros ->. simpl. unfold append_text.
  destruct (lookup_field (str "content") fields) as [v|]; [|done].
  by destruct (to_string_throws v).
Qed.

Section LinesWithParser.
Variable JSON_parse : jsstring → option JsValue.

(** A data line goes to the parser and then to the switch. *)
Lemma process_data_line (payload : jsstring) :
  process_line JSON_parse (str "data: " ++ payload) =
  match JSON_parse payload with
  | None => ([], [{| warned_line := str "data: " ++ payload; parseError := SyntaxError |}])
  | Some data =>
      match switch_data data with
      | Normal events => (events, [])
      | Throw e => ([], [{| warned_line := str "data: " ++ payload; parseError := e |}])
      end
  end.
Proof.
  unfold process_line. rewrite data_line_not_blank. reflexivity.
Qed.

(** The events of a sequence of data lines are those of [normalize] on the
    events that the payloads parse to. *)
Lemma process_data_lines (payloads : list jsstring) (evs : list BackendEvent) :
  Forall2 (fun payload ev => JSON_parse payload = Some ev) payloads evs →
  (process_lines JSON_parse (data_line <$> payloads)).1 = normalize evs.
Proof.
  induction 1 as [|payload ev payloads evs Hp _ IH]; [done|].
  rewrite fmap_cons, normalize_cons, <- IH. cbn [process_lines].
  unfold data_line at 1. rewrite process_data_line, Hp. unfold translate.
  destruct (process_lines JSON_parse (data_line <$> payloads)) as [es ws].
  by destruct (switch_data ev).
Qed.

(** The events of a line are those of the event it parses to, if any. *)
Lemma process_line_events (line : jsstring) :
  (process_line JSON_parse line).1 = [] ∨
  ∃ data, startsWith (str "data: ") line = true ∧
          JSON_parse (slice 6 line) = Some data ∧
          (process_line JSON_parse line).1 = translate data.
Proof.
  unfold process_line, translate.
  destruct (bool_decide (trim line = []) || startsWith (str ":") line); [by left|].
  destruct (startsWith (str "data: ") line); [|by left].
  destruct (JSON_parse (slice 6 line)) as [data|]; [|by left].
  right. exists data. by destruct (switch_data data).
Qed.

Lemma count_finish_line (line : jsstring) :
  count is_finish (process_line JSON_parse line).1 =
  if done_line JSON_parse line then 1%nat else 0%nat.
Proof.
  unfold done_line, process_line.
  destruct (startsWith (str "data: ") line) eqn:Hp.
  - rewrite (data_prefix_not_skipped line Hp). simpl.
    destruct (JSON_parse (slice 6 line)) as [data|]; [|reflexivity].
    rewrite <- count_finish_translate. unfold translate.
    destruct (switch_data data); reflexivity.
  - by destruct (bool_decide (trim line = []) || startsWith (str ":") line).
Qed.

Lemma count_finish_lines (lines : list jsstring) :
  count is_finish (process_lines JSON_parse lines).1 = count (done_line JSON_parse) lines.
Proof.
  induction lines as [|line lines IH]; [done|]. simpl.
  pose proof (count_finish_line line) as Hl.
  destruct (process_line JSON_parse line) as [e w].
  destruct (process_lines JSON_parse lines) as [es ws]. simpl in *.
  by rewrite count_app, Hl, IH.
Qed.

Lemma transform_lines (agentStream : AgentStream) :
  transformAgentStreamToUIStream JSON_parse agentStream =
  let out := process_lines JSON_parse (decoded_lines loop_start (chunks agentStream)) in
  {| enqueued := out.1;
     termination := match ending agentStream with
                    | read_done => closed
                    | read_rejects error => errored error
                    end;
     console := out.2 |}.
Proof.
  unfold transformAgentStreamToUIStream. rewrite read_loop_lines.
  by destruct (process_lines JSON_parse _).
Qed.

Lemma count_prefix {A} (p : A → bool) (l1 l2 : list A) :
  l1 `prefix_of` l2 → (count p l1 ≤ count p l2)%nat.
Proof. intros [k ->]. rewrite count_app. lia. Qed.

(** C6, as amended. For an agent stream whose lines hold no error event, the
    returned stream ends once: closed when the agent stream closes, errored
    with the read error when a read fails.  The events enqueued are those of
    the complete lines, one finish event for each done line.  The consumer
    has read all of them when it sees the close, and a prefix of them when it
    sees the error.  When the agent stream closes without a done line, the
    consumer sees the close with no finish event and no error. *)
Theorem stream_ends_once (chunks : list (list Z))
    (Hno_error : Forall (fun line => error_line JSON_parse line = false)
                   (decoded_lines loop_start chunks)) :
  let lines := decoded_lines loop_start chunks in
  let out e := transformAgentStreamToUIStream JSON_parse {| chunks := chunks; ending := e |} in
  termination (out read_done) = closed ∧
  (∀ error, termination (out (read_rejects error)) = errored error) ∧
  (∀ e, enqueued (out e) = (process_lines JSON_parse lines).1) ∧
  (∀ e, count is_finish (enqueued (out e)) = count (done_line JSON_parse) lines) ∧
  (∀ seen, observes (out read_done) seen ↔ seen = (process_lines JSON_parse lines).1) ∧
  (∀ error seen, observes (out (read_rejects error)) seen ↔
                 seen `prefix_of` (process_lines JSON_parse lines).1) ∧
  (∀ e seen, observes (out e) seen →
             (count is_finish seen ≤ count (done_line JSON_parse) lines)%nat) ∧
  (count (done_line JSON_parse) lines = 0%nat →
   ∀ seen, observes (out read_done) seen →
           termination (out read_done) = closed ∧ count is_finish seen = 0%nat).
Proof.
  intros lines out. unfold out, observes.
  split_and!; intros; rewrite ?transform_lines in *; simpl in *; try done.
  - apply count_finish_lines.
  - rewrite <- count_finish_lines. destruct e; [by subst|by apply count_prefix].
  - subst. split; [done|]. by rewrite count_finish_lines.
Qed.

(** C9. A blank line and a line that begins with a colon yield no event and
    no warning; a data line whose payload does not parse yields no event and
    one warning, and the lines around it yield their events as without it:
    between two lines of valid token events, whose content can be appended to
    a string as every string can, it leaves the text-delta events of both. *)
Theorem malformed_line_skipped :
  (∀ line, trim line = [] → process_line JSON_parse line = ([], [])) ∧
  (∀ rest, process_line JSON_parse (str ":" ++ rest) = ([], [])) ∧
  (∀ payload, JSON_parse payload = None →
     process_line JSON_parse (data_line payload) =
     ([], [{| warned_line := data_line payload; parseError := SyntaxError |}])) ∧
  (∀ payload before after, JSON_parse payload = None →
     (process_lines JSON_parse (before ++ data_line payload :: after)).1 =
     (process_lines JSON_parse before).1 ++ (process_lines JSON_parse after).1) ∧
  (∀ payload1 bad payload2 ev1 ev2,
     JSON_parse payload1 = Some ev1 → has_type "token" ev1 = true → appends ev1 = true →
     JSON_parse bad = None →
     JSON_parse payload2 = Some ev2 → has_type "token" ev2 = true → appends ev2 = true →
     (process_lines JSON_parse [data_line payload1; data_line bad; data_line payload2]) =
     ([TextDelta (event_content ev1); TextDelta (event_content ev2)],
      [{| warned_line := data_line bad; parseError := SyntaxError |}])).
Proof.
  assert (∀ payload ev, JSON_parse payload = Some ev → has_type "token" ev = true →
            appends ev = true →
            process_line JSON_parse (data_line payload) = ([TextDelta (event_content ev)], []))
    as Htoken.
  { intros payload ev Hp Ht Ha. unfold data_line. rewrite process_data_line, Hp.
    rewrite (token_switch ev (fun events => (events, [])) _ Ht). by rewrite Ha. }
  split; [|split; [|split; [|split]]].
  - intros line Hblank. unfold process_line. by rewrite bool_decide_eq_true_2.
  - intros rest. unfold process_line.
    replace (startsWith (str ":") (str ":" ++ rest)) with true by reflexivity.
    by rewrite orb_true_r.
  - intros payload Hp. unfold data_line. by rewrite process_data_line, Hp.
  - intros payload before after Hp. rewrite process_lines_app. simpl.
    unfold data_line. rewrite process_data_line, Hp.
    by destruct (process_lines JSON_parse after).
  - intros payload1 bad payload2 ev1 ev2 Hp1 Ht1 Ha1 Hbad Hp2 Ht2 Ha2. simpl.
    rewrite (Htoken _ _ Hp1 Ht1 Ha1), (Htoken _ _ Hp2 Ht2 Ha2).
    unfold data_line at 1. by rewrite process_data_line, Hbad.
Qed.

(** C10. A line that begins with [data:] without the space after the colon
    yields no event and no warning, whatever [JSON.parse] would make of it:
    the loop takes a line for a data line on the prefix [data: ] only. *)
Theorem data_prefix_needs_space (line : jsstring) :
  startsWith (str "data:") line = true →
  startsWith (str "data: ") line = false →
  process_line JSON_parse line = ([], []).
Proof.
  intros _ Hprefix. unfold process_line. rewrite Hprefix.
  by destruct (bool_decide (trim line = []) || startsWith (str ":") line).
Qed.

(** Only a line with the prefix [data: ] yields an event or a warning. *)
Lemma only_data_lines_processed (line : jsstring) :
  process_line JSON_parse line ≠ ([], []) → startsWith (str "data: ") line = true.
Proof.
  unfold process_line. intros H.
  destruct (bool_decide (trim line = []) || startsWith (str ":") line); [done|].
  by destruct (startsWith (str "data: ") line).
Qed.

End LinesWithParser.

Lemma stream_ends_once_example :
  enqueued (transformAgentStreamToUIStream json_parse
              {| chunks := [quoted "data: {'type':'done'}" ++ [10]]; ending := read_rejects (ReadError (str "reset")) |})
    = [finish_stop].
Proof. reflexivity. Qed.

(** C6 as stated fails: the agent stream sends a token line and closes; the
    returned stream closes after the text-delta event, with neither a finish
    event nor an error. *)
Lemma silent_close :
  let out := transformAgentStreamToUIStream json_parse
               {| chunks := [quoted "data: {'type':'token','content':'Hi'}" ++ [10]];
                  ending := read_done |} in
  out = {| enqueued := [TextDelta (Some (JString (str "Hi")))];
           termination := closed; console := [] |} ∧
  (∀ seen, observes out seen → seen = [TextDelta (Some (JString (str "Hi")))]) ∧
  ¬ (last (enqueued out) = Some finish_stop ∨ ∃ error, termination out = errored error).
Proof.
  split; [reflexivity|]. split; [intros seen Hseen; exact Hseen|].
  intros [H|[error H]]; vm_compute in H; congruence.
Qed.

Lemma malformed_line_skipped_witness :
  process_line json_parse [] = ([], []) ∧
  process_line json_parse (str ": keep-alive") = ([], []) ∧
  (process_line json_parse (data_line (quoted "{'type':"))).1 = [] ∧
  (process_lines json_parse
     [data_line (quoted "{'type':'token','content':'A'}");
      data_line (quoted "{'type':");
      data_line (quoted "{'type':'token','content':'B'}")]).1 =
  [TextDelta (Some (JString (str "A"))); TextDelta (Some (JString (str "B")))].
Proof.
  destruct (malformed_line_skipped json_parse) as (Hblank & Hcolon & Hbad & _ & Hboth).
  split; [by apply Hblank|]. split; [apply (Hcolon (str " keep-alive"))|].
  split; [by rewrite Hbad|].
  rewrite (Hboth _ _ _ (token_event (str "A")) (token_event (str "B")));
    reflexivity.
Defined.

Lemma stream_ends_once_witness :
  let chunks := [quoted "data: {'type':'token','content':'Hi'}" ++ [10];
                 quoted "data: {'type':'done'}" ++ [10]] in
  let out := transformAgentStreamToUIStream json_parse
               {| chunks := chunks; ending := read_done |} in
  Forall (fun line => error_line json_parse line = false) (decoded_lines loop_start chunks) ∧
  termination out = closed ∧
  observes out [TextDelta (Some (JString (str "Hi"))); finish_stop].
Proof.
  cbv zeta.
  assert (Forall (fun line => error_line json_parse line = false)
            (decoded_lines loop_start
               [quoted "data: {'type':'token','content':'Hi'}" ++ [10];
                quoted "data: {'type':'done'}" ++ [10]])) as Hno_error.
  { vm_compute. repeat constructor. }
  split; [exact Hno_error|].
  destruct (stream_ends_once json_parse _ Hno_error) as (Hclosed & _ & _ & _ & Hseen & _).
  split; [exact Hclosed|]. apply Hseen. reflexivity.
Defined.

Lemma data_prefix_needs_space_witness :
  process_line json_parse (quoted "data:{'type':'token','content':'Hi'}") = ([], []).
Proof. apply data_prefix_needs_space; reflexivity. Defined.

Example data_prefix_with_space :
  process_line json_parse (quoted "data: {'type':'token','content':'Hi'}") =
  ([TextDelta (Some (JString (str "Hi")))], []).
Proof. reflexivity. Qed.

Lemma chunk_boundary_independence_witness :
  transformAgentStreamToUIStream json_parse
    {| chunks := [take 35 euro_line; drop 35 euro_line]; ending := read_done |} =
  transformAgentStreamToUIStream json_parse
    {| chunks := [euro_line]; ending := read_done |}.
Proof.
  apply (chunk_boundary_independence json_parse). reflexivity.
Defined.

(** Scenario A of the spec: the two lines cut anywhere into two chunks. *)
Example scenario_A (n : nat) :
  transformAgentStreamToUIStream json_parse
    {| chunks := [take n scenario_A_bytes; drop n scenario_A_bytes]; ending := read_done |} =
  {| enqueued := [TextDelta (Some (JString (str "Hi"))); finish_stop];
     termination := closed; console := [] |}.
Proof.
  rewrite transform_lines. cbn [chunks ending].
  rewrite decoded_lines_concat by apply not_elem_of_nil.
  cbn [concat]. rewrite app_nil_r, take_drop. reflexivity.
Qed.

(** The line that the agent service sends on an error. *)
Example error_line_dropped :
  process_line json_parse (quoted "data: {'type':'error','error':'boom'}") = ([], []).
Proof. reflexivity. Qed.

End StreamFacts.

(** * Properties of the evaluation poller *)

Module PollerFacts.
Import Poller.

(** ** Timers and handles agree *)

(** An action that leaves the map, the timers and the counter alone. *)
Lemma consistent_same (w w' : World) :
  pollingIntervals (store w') = pollingIntervals (store w) →
  timers w' = timers w → next_timer w' = next_timer w →
  consistent w → consistent w'.
Proof.
  intros Hm Ht Hn [H1 H2 H3]. split; rewrite ?Hm, ?Ht, ?Hn; assumption.
Qed.

Lemma consistent_initial : consistent initial_world.
Proof. split; simpl; intros *; rewrite ?lookup_empty; by try intros [? ?]. Qed.

Lemma consistent_startPolling (jobId : string) (intervalMs : Z) (w : World) :
  consistent w → consistent (startPolling jobId intervalMs w).
Proof.
  intros [H1 H2 H3]. unfold startPolling.
  destruct (decide (is_Some (pollingIntervals (store w) !! jobId))) as [|Hnone]; [done|].
  assert (timers w !! next_timer w = None) as Hfresh.
  { destruct (timers w !! next_timer w) eqn:E; [|done].
    assert (next_timer w < next_timer w)%positive by (apply H3; eauto). lia. }
  split; simpl.
  - intros j t. rewrite lookup_insert. case_decide as Hj.
    + intros [= <-]. subst j. exists intervalMs. by rewrite lookup_insert_eq.
    + intros Hjt. destruct (H1 j t Hjt) as [ms Hms]. exists ms.
      rewrite lookup_insert_ne; [done|]. intros <-. congruence.
  - intros t j ms. rewrite lookup_insert. case_decide as Ht.
    + intros [= <- <-]. subst t. by rewrite lookup_insert_eq.
    + intros Htj. pose proof (H2 t j ms Htj) as Hj.
      rewrite lookup_insert_ne; [done|]. intros <-. apply Hnone. eauto.
  - intros t. rewrite lookup_insert. case_decide as Ht.
    + subst t. lia.
    + intros Hs. apply H3 in Hs. lia.
Qed.

Lemma consistent_stopPolling (jobId : string) (w : World) :
  consistent w → consistent (stopPolling jobId w).
Proof.
  intros [H1 H2 H3]. unfold stopPolling.
  destruct (pollingIntervals (store w) !! jobId) as [tid|] eqn:Htid; [|done].
  split; simpl.
  - intros j t. rewrite lookup_delete. case_decide as Hj; [done|].
    intros Hjt. destruct (H1 j t Hjt) as [ms Hms]. exists ms.
    rewrite lookup_delete_ne; [done|]. intros <-.
    destruct (H1 jobId tid Htid) as [ms' Hms']. congruence.
  - intros t j ms. rewrite lookup_delete. case_decide as Ht; [done|].
    intros Htj. pose proof (H2 t j ms Htj) as Hj.
    rewrite lookup_delete_ne; [done|]. intros <-. congruence.
  - intros t. rewrite lookup_delete. case_decide; [by intros [? ?]|]. apply H3.
Qed.

Lemma lookup_clear_all (ts : gmap TimerId (string * Z)) (l : list (string * TimerId))
    (t : TimerId) :
  foldr (fun entry ts => delete entry.2 ts) ts l !! t =
  if decide (t ∈ l.*2) then None else ts !! t.
Proof.
  induction l as [|[j t'] l IH].
  - case_decide as Hin; [|done]. by apply elem_of_nil in Hin.
  - cbn [foldr]. rewrite lookup_delete, IH, fmap_cons. cbn [snd].
    destruct (decide (t' = t)) as [->|Hne].
    + rewrite decide_True; [done|]. apply list_elem_of_here.
    + destruct (decide (t ∈ l.*2)) as [Hin|Hin].
      * rewrite decide_True; [done|]. by apply list_elem_of_further.
      * rewrite decide_False; [done|]. rewrite not_elem_of_cons. by split.
Qed.

Lemma consistent_stopAllPolling (w : World) :
  consistent w → consistent (stopAllPolling w).
Proof.
  intros [H1 H2 H3]. unfold stopAllPolling. split; simpl.
  - intros j t. by rewrite lookup_empty.
  - intros t j ms. rewrite lookup_clear_all. case_decide as Hin; [done|].
    intros Htj. exfalso. apply Hin. apply list_elem_of_fmap.
    exists (j, t). split; [done|]. apply elem_of_map_to_list. eauto.
  - intros t. rewrite lookup_clear_all. case_decide; [by intros [? ?]|]. apply H3.
Qed.

Lemma consistent_status_settle (call : CallId) (reply : Settled EvaluationJob) (w : World) :
  consistent w → consistent (status_settle call reply w).
Proof.
  intros Hw. unfold status_settle.
  destruct (status_calls w !! call) as [jobId|]; [|done].
  assert (∀ w1, pollingIntervals (store w1) = pollingIntervals (store w) →
                timers w1 = timers w → next_timer w1 = next_timer w → consistent w1)
    as Hsame by (intros; by eapply consistent_same).
  destruct reply as [job|message].
  - destruct (is_terminal (status job)); [|by apply Hsame].
    destruct (decide (status job = completed)).
    + eapply (consistent_same (stopPolling jobId _)); [reflexivity..|].
      apply consistent_stopPolling. by apply Hsame.
    + apply consistent_stopPolling. by apply Hsame.
  - apply consistent_stopPolling. by apply Hsame.
Qed.

Lemma consistent_step (w : World) (ev : Event) : consistent w → consistent (step w ev).
Proof.
  intros Hw. destruct ev; simpl.
  - by apply consistent_startPolling.
  - by apply consistent_stopPolling.
  - by apply consistent_stopAllPolling.
  - apply (consistent_same w); [reflexivity..|exact Hw].
  - apply (consistent_same w); [reflexivity..|exact Hw].
  - unfold tick. destruct (timers w !! intervalId) as [[j ms]|]; [|done].
    apply (consistent_same w); [reflexivity..|exact Hw].
  - by apply consistent_status_settle.
  - unfold fetchJob_settle. destruct (job_calls w !! call); [|done].
    destruct reply; (apply (consistent_same w); [reflexivity..|exact Hw]).
  - unfold results_settle. destruct (results_calls w !! call); [|done].
    destruct reply; (apply (consistent_same w); [reflexivity..|exact Hw]).
  - apply (consistent_same w); [reflexivity..|exact Hw].
Qed.

Lemma consistent_foldl (events : list Event) (w : World) :
  consistent w → consistent (foldl step w events).
Proof.
  revert w. induction events as [|ev events IH]; intros w Hw; simpl; [done|].
  by apply IH, consistent_step.
Qed.

Lemma consistent_run (events : list Event) : consistent (run events).
Proof. apply consistent_foldl, consistent_initial. Qed.

(** ** Handles *)

Lemma handles_lookup (jobId : string) (w : World) (t : TimerId) (timer : string * Z) :
  handles jobId w !! t = Some timer ↔ timers w !! t = Some timer ∧ timer.1 = jobId.
Proof. unfold handles. by rewrite map_lookup_filter_Some. Qed.

Lemma handles_none (jobId : string) (w : World) :
  consistent w → pollingIntervals (store w) !! jobId = None → handles jobId w = ∅.
Proof.
  intros Hw Hnone. apply map_empty. intros t.
  destruct (handles jobId w !! t) as [[j ms]|] eqn:E; [|done].
  apply handles_lookup in E as [E Hj]. simpl in Hj. subst j.
  apply (timer_handle w Hw) in E. congruence.
Qed.

Lemma handles_some (jobId : string) (w : World) (t : TimerId) :
  consistent w → pollingIntervals (store w) !! jobId = Some t →
  ∃ ms, handles jobId w = {[ t := (jobId, ms) ]}.
Proof.
  intros Hw Ht. destruct (handle_timer w Hw _ _ Ht) as [ms Hms].
  exists ms. apply map_eq. intros t'. apply option_eq. intros [j ms'].
  rewrite handles_lookup, lookup_singleton_Some. simpl. split.
  - intros [Ht' ->]. pose proof (timer_handle w Hw _ _ _ Ht') as Ht''.
    assert (t' = t) as -> by congruence. split; congruence.
  - intros [<- [= <- <-]]. done.
Qed.

Lemma handles_size (jobId : string) (w : World) :
  consistent w →
  size (handles jobId w) =
  match pollingIntervals (store w) !! jobId with Some _ => 1%nat | None => 0%nat end.
Proof.
  intros Hw. destruct (pollingIntervals (store w) !! jobId) as [t|] eqn:Ht.
  - destruct (handles_some jobId w t Hw Ht) as [ms ->]. apply map_size_singleton.
  - rewrite handles_none by done. apply map_size_empty.
Qed.

Lemma sent_app (r : Request) (w : World) (l1 l2 : list Request) :
  length (filter (fun r' => r' = r) (l1 ++ l2)) =
  (length (filter (fun r' => r' = r) l1) + length (filter (fun r' => r' = r) l2))%nat.
Proof. by rewrite filter_app, length_app. Qed.

(** A tick of a live timer sends one status request, for the job of the
    timer; a tick of a cleared timer sends none. *)
Lemma sent_tick (jobId : string) (t : TimerId) (w : World) :
  sent (getJobStatus jobId) (tick t w) =
  (sent (getJobStatus jobId) w +
   match timers w !! t with
   | Some (j, _) => if decide (j = jobId) then 1 else 0
   | None => 0
   end)%nat.
Proof.
  unfold tick, sent. destruct (timers w !! t) as [[j ms]|]; simpl; [|lia].
  rewrite filter_app, length_app. f_equal.
  rewrite filter_cons, filter_nil.
  destruct (decide (j = jobId)) as [->|Hne].
  - by rewrite decide_True.
  - rewrite decide_False; [done|]. congruence.
Qed.

Lemma stopPolling_lookup (jobId : string) (w : World) :
  pollingIntervals (store (stopPolling jobId w)) = delete jobId (pollingIntervals (store w)).
Proof.
  unfold stopPolling.
  destruct (pollingIntervals (store w) !! jobId) eqn:E; simpl; [done|].
  by rewrite delete_id.
Qed.

Lemma stopPolling_requests (jobId : string) (w : World) :
  requests (stopPolling jobId w) = requests w ∧
  jobs (store (stopPolling jobId w)) = jobs (store w) ∧
  currentResults (store (stopPolling jobId w)) = currentResults (store w) ∧
  isLoading (store (stopPolling jobId w)) = isLoading (store w) ∧
  error (store (stopPolling jobId w)) = error (store w).
Proof. unfold stopPolling. by destruct (pollingIntervals (store w) !! jobId). Qed.

(** Clearing the timer of one job leaves the timers of the others. *)
Lemma stopPolling_other (jobId other : string) (w : World) :
  consistent w → other ≠ jobId → handles other (stopPolling jobId w) = handles other w.
Proof.
  intros Hw Hne. unfold stopPolling.
  destruct (pollingIntervals (store w) !! jobId) as [t|] eqn:Ht; [|done].
  unfold handles. simpl. rewrite map_filter_delete.
  apply delete_id. apply map_lookup_filter_None. right.
  intros [j ms] Hj. simpl. destruct (handle_timer w Hw _ _ Ht) as [ms' Hms'].
  congruence.
Qed.

(** C4. In every state that the store can reach, a job has at most one live
    timer; [startPolling] for a job that has a handle changes nothing; after
    two calls in a row the job has exactly one live timer, and a tick sends a
    status request for the job exactly when it is the tick of that timer. *)
Theorem one_handle_per_job (events : list Event) (jobId : string) (intervalMs intervalMs' : Z) :
  let w := run events in
  let w1 := startPolling jobId intervalMs w in
  let w2 := startPolling jobId intervalMs' w1 in
  (size (handles jobId w) ≤ 1)%nat ∧
  (is_Some (pollingIntervals (store w) !! jobId) → w1 = w) ∧
  w2 = w1 ∧
  size (handles jobId w2) = 1%nat ∧
  ∃ intervalId, pollingIntervals (store w2) !! jobId = Some intervalId ∧
    ∀ t, sent (getJobStatus jobId) (tick t w2) =
         (sent (getJobStatus jobId) w2 + if decide (t = intervalId) then 1 else 0)%nat.
Proof.
  intros w w1 w2.
  pose proof (consistent_run events) as Hw. fold w in Hw.
  assert (consistent w1) as Hw1 by by apply consistent_startPolling.
  assert (∃ intervalId, pollingIntervals (store w1) !! jobId = Some intervalId)
    as [intervalId Hid].
  { unfold w1, startPolling.
    destruct (decide (is_Some (pollingIntervals (store w) !! jobId))) as [[t Ht]|_]; [eauto|].
    simpl. rewrite lookup_insert_eq. eauto. }
  assert (w2 = w1) as Hw2.
  { unfold w2, startPolling at 1. rewrite decide_True; [done|]. eauto. }
  split; [|split; [|split; [|split]]].
  - rewrite handles_size by done. destruct (pollingIntervals (store w) !! jobId); lia.
  - intros Hsome. unfold w1, startPolling. by rewrite decide_True.
  - exact Hw2.
  - rewrite Hw2, handles_size by done. by rewrite Hid.
  - exists intervalId. rewrite Hw2. split; [done|]. intros t. rewrite sent_tick. f_equal.
    destruct (timers w1 !! t) as [[j ms]|] eqn:Ht.
    + destruct (decide (j = jobId)) as [->|Hne].
      * apply (timer_handle w1 Hw1) in Ht. rewrite decide_True; [done|]. congruence.
      * rewrite decide_False; [done|]. intros ->.
        destruct (handle_timer w1 Hw1 _ _ Hid) as [ms' Hms']. congruence.
    + rewrite decide_False; [done|]. intros ->.
      destruct (handle_timer w1 Hw1 _ _ Hid) as [ms' Hms']. congruence.
Qed.

Lemma sent_results_request (jobId j : string) (w : World) :
  sent (getJobStatus jobId) (fetchResults j w) = sent (getJobStatus jobId) w.
Proof.
  unfold sent, fetchResults. simpl. rewrite filter_app, length_app.
  rewrite filter_cons, filter_nil, decide_False; [simpl; lia|done].
Qed.

Lemma status_settle_stopped (jobId : string) (call : CallId) (reply : Settled EvaluationJob)
    (w : World) :
  pollingIntervals (store w) !! jobId = None →
  pollingIntervals (store (status_settle call reply w)) !! jobId = None ∧
  sent (getJobStatus jobId) (status_settle call reply w) = sent (getJobStatus jobId) w.
Proof.
  intros Hnone. unfold status_settle.
  destruct (status_calls w !! call) as [j|]; [|done].
  destruct reply as [job|message].
  - destruct (is_terminal (status job)); [|done].
    destruct (decide (status job = completed)).
    + rewrite sent_results_request. unfold sent. simpl.
      rewrite stopPolling_lookup, (proj1 (stopPolling_requests _ _)). simpl.
      split; [|done]. destruct (decide (j = jobId)) as [->|Hne].
      * apply lookup_delete_eq.
      * by rewrite lookup_delete_ne.
    + unfold sent. rewrite stopPolling_lookup, (proj1 (stopPolling_requests _ _)). simpl.
      split; [|done]. destruct (decide (j = jobId)) as [->|Hne].
      * apply lookup_delete_eq.
      * by rewrite lookup_delete_ne.
  - unfold sent. rewrite stopPolling_lookup, (proj1 (stopPolling_requests _ _)). simpl.
    split; [|done]. destruct (decide (j = jobId)) as [->|Hne].
    + apply lookup_delete_eq.
    + by rewrite lookup_delete_ne.
Qed.

Lemma sent_snoc (r r' : Request) (l : list Request) :
  length (filter (fun x => x = r) (l ++ [r'])) =
  (length (filter (fun x => x = r) l) + if decide (r' = r) then 1 else 0)%nat.
Proof.
  rewrite filter_app, length_app, filter_cons, filter_nil. by destruct (decide (r' = r)).
Qed.

(** [fetchJob] sends one status request, for its job. *)
Lemma sent_fetchJob (jobId j : string) (w : World) :
  sent (getJobStatus jobId) (fetchJob j w) =
  (sent (getJobStatus jobId) w + if bool_decide (j = jobId) then 1 else 0)%nat.
Proof.
  unfold sent, fetchJob. simpl. rewrite sent_snoc. f_equal.
  case_bool_decide as Hj.
  - subst j. by rewrite decide_True.
  - rewrite decide_False; [done|]. congruence.
Qed.

(** A step that does not start polling the job again leaves it without a
    handle; it sends a status request for it only when it is a call of
    [fetchJob] for the job. *)
Lemma step_stopped (jobId : string) (ev : Event) (w : World) :
  consistent w → pollingIntervals (store w) !! jobId = None → restarts jobId ev = false →
  pollingIntervals (store (step w ev)) !! jobId = None ∧
  sent (getJobStatus jobId) (step w ev) =
  (sent (getJobStatus jobId) w + if fetches_job jobId ev then 1 else 0)%nat.
Proof.
  intros Hw Hnone Hev.
  destruct ev as [j ms|j| |j|j|t|call reply|call reply|call reply|js rs l e];
    cbn [step fetches_job]; rewrite ?Nat.add_0_r.
  - simpl in Hev. apply bool_decide_eq_false in Hev. unfold startPolling.
    destruct (decide (is_Some (pollingIntervals (store w) !! j))); [done|].
    simpl. by rewrite lookup_insert_ne.
  - rewrite stopPolling_lookup. unfold sent. rewrite (proj1 (stopPolling_requests _ _)).
    split; [|done]. destruct (decide (j = jobId)) as [->|Hne].
    + apply lookup_delete_eq.
    + by rewrite lookup_delete_ne.
  - done.
  - split; [done|]. apply sent_fetchJob.
  - split; [done|]. apply sent_results_request.
  - split.
    + unfold tick. by destruct (timers w !! t) as [[j ms]|].
    + rewrite sent_tick. destruct (timers w !! t) as [[j ms]|] eqn:Ht; [|lia].
      destruct (decide (j = jobId)) as [->|]; [|lia].
      apply (timer_handle w Hw) in Ht. congruence.
  - by apply status_settle_stopped.
  - unfold fetchJob_settle. destruct (job_calls w !! call); [|done]. by destruct reply.
  - unfold results_settle. destruct (results_calls w !! call); [|done]. by destruct reply.
  - done.
Qed.

(** Once a job has no handle, the status requests sent for it are those of
    the calls of [fetchJob], until [startPolling] is called for it again: no
    tick sends one. *)
Lemma stopped_stays_stopped (jobId : string) (later : list Event) (w : World) :
  consistent w → pollingIntervals (store w) !! jobId = None →
  Forall (fun ev => restarts jobId ev = false) later →
  sent (getJobStatus jobId) (foldl step w later) =
  (sent (getJobStatus jobId) w + fetchJob_calls jobId later)%nat.
Proof.
  unfold fetchJob_calls.
  revert w. induction later as [|ev later IH]; intros w Hw Hnone Hlater; [simpl; lia|].
  inversion Hlater as [|? ? Hev Hrest]; subst. simpl.
  destruct (step_stopped jobId ev w Hw Hnone Hev) as [Hnone' Hsent].
  rewrite IH; [|by apply consistent_step|done|done]. rewrite Hsent, filter_cons.
  destruct (fetches_job jobId ev); simpl; lia.
Qed.

(** ** Results requests *)








(** C7. When the status request of a tick is rejected, the handle of that job
    is removed and its timer cleared, and nothing else changes: the job
    records, the results, the flags, the handles and timers of the other
    jobs; no request is sent. *)
Theorem transport_error_stops_one_job (events : list Event) (call : CallId)
    (jobId : string) (message : string) :
  let w := run events in
  let w' := status_settle call (rejected message) w in
  status_calls w !! call = Some jobId →
  jobs (store w') = jobs (store w) ∧
  pollingIntervals (store w') = delete jobId (pollingIntervals (store w)) ∧
  handles jobId w' = ∅ ∧
  (∀ other, other ≠ jobId →
     pollingIntervals (store w') !! other = pollingIntervals (store w) !! other ∧
     handles other w' = handles other w) ∧
  currentResults (store w') = currentResults (store w) ∧
  error (store w') = error (store w) ∧
  requests w' = requests w.
Proof.
  intros w w' Hcall.
  pose proof (consistent_run events) as Hw. fold w in Hw.
  pose proof (consistent_status_settle call (rejected message) w Hw) as Hw'. fold w' in Hw'.
  unfold w', status_settle in *. rewrite Hcall in *.
  match goal with |- context [stopPolling jobId ?x] => set (w0 := x) in * end.
  assert (consistent w0) as Hw0 by (apply (consistent_same w); [reflexivity..|exact Hw]).
  destruct (stopPolling_requests jobId w0) as (Hr & Hj & Hc & _ & He).
  rewrite stopPolling_lookup.
  split; [done|]. split; [done|].
  split; [apply handles_none; [done|]; rewrite stopPolling_lookup; apply lookup_delete_eq|].
  split; [|done].
  intros other Hne. split; [by apply lookup_delete_ne|].
  by rewrite stopPolling_other.
Qed.

Lemma one_handle_per_job_witness :
  let w := run two_jobs_polled in
  startPolling "job-1" 500 w = w ∧ size (handles "job-1" w) = 1%nat.
Proof.
  destruct (one_handle_per_job two_jobs_polled "job-1" 500 500) as (_ & Hnoop & _ & Hone & _).
  assert (startPolling "job-1" 500 (run two_jobs_polled) = run two_jobs_polled) as Hsame.
  { apply Hnoop. exists 1%positive. reflexivity. }
  split; [exact Hsame|]. rewrite !Hsame in Hone. exact Hone.
Defined.


Lemma transport_error_stops_one_job_witness :
  let w := run two_jobs_polled in
  let w' := status_settle 1 (rejected "Failed to fetch") w in
  jobs (store w') = jobs (store w) ∧
  pollingIntervals (store w') !! "job-1" = None ∧
  pollingIntervals (store w') !! "job-2" = Some 2%positive.
Proof.
  destruct (transport_error_stops_one_job two_jobs_polled 1 "job-1" "Failed to fetch")
    as (Hjobs & Hmap & _ & Hother & _).
  - reflexivity.
  - split; [exact Hjobs|]. split.
    + rewrite Hmap. apply lookup_delete_eq.
    + destruct (Hother "job-2") as [-> _]; [done|]. reflexivity.
Defined.

(** Scenario B of the spec: three running replies and a completed one. *)
Example scenario_B :
  let w := run [OtherAction [sample_job "job-1" queued] None false None;
                StartPolling "job-1" 2000;
                Tick 1; StatusSettles 1 (resolved (sample_job "job-1" running));
                Tick 1; StatusSettles 2 (resolved (sample_job "job-1" running));
                Tick 1; StatusSettles 3 (resolved (sample_job "job-1" running));
                Tick 1; StatusSettles 4 (resolved (sample_job "job-1" completed));
                Tick 1] in
  requests w = [getJobStatus "job-1"; getJobStatus "job-1"; getJobStatus "job-1";
                getJobStatus "job-1"; getJobResults "job-1"] ∧
  pollingIntervals (store w) = ∅ ∧ timers w = ∅ ∧
  jobs (store w) = [sample_job "job-1" completed].
Proof. repeat split; reflexivity. Qed.

(** Two ticks in flight: each completed reply sends its own results request. *)
Example overlapping_ticks :
  let w := run [StartPolling "job-1" 2000; Tick 1; Tick 1;
                StatusSettles 1 (resolved (sample_job "job-1" completed));
                StatusSettles 2 (resolved (sample_job "job-1" completed))] in
  requests w = [getJobStatus "job-1"; getJobStatus "job-1";
                getJobResults "job-1"; getJobResults "job-1"].
Proof. reflexivity. Qed.

End PollerFacts.

(** * More properties of the stream transformer *)

Module StreamMore.
Import Stream StreamFacts.
#[local] Arguments str : simpl never.
#[local] Arguments slice : simpl never.

Lemma split_nl_lines_no_nl (s line : jsstring) : line ∈ split_nl s → 10 ∉ line.
Proof.
  revert line. induction s as [|c s IH]; intros line; simpl.
  - intros ->%list_elem_of_singleton. apply not_elem_of_nil.
  - destruct (Z.eqb_spec c 10) as [->|Hc].
    + intros [->|Hin]%elem_of_cons; [apply not_elem_of_nil|by apply IH].
    + destruct (split_nl s) as [|l ls] eqn:E; [by destruct (split_nl_nonempty s)|].
      intros [->|Hin]%elem_of_cons.
      * rewrite not_elem_of_cons. split; [done|]. apply IH, list_elem_of_here.
      * by apply IH, list_elem_of_further.
Qed.

Lemma elem_of_removelast {A} (x : A) (l : list A) : x ∈ removelast l → x ∈ l.
Proof.
  induction l as [|a [|b l] IH]; simpl; [done|by intros ?%elem_of_nil|].
  intros [->|Hin]%elem_of_cons; [apply list_elem_of_here|].
  apply list_elem_of_further, IH, Hin.
Qed.

Lemma decoded_lines_no_nl (st : LoopState) (chunks : list (list Z)) (line : jsstring) :
  line ∈ decoded_lines st chunks → 10 ∉ line.
Proof.
  revert st. induction chunks as [|value rest IH]; intros st; simpl.
  - by intros ?%elem_of_nil.
  - unfold read_lines. destruct (decode (decoder st) value) as [dec text].
    intros [Hin|Hin]%elem_of_app; [|by eapply IH].
    by eapply split_nl_lines_no_nl, elem_of_removelast.
Qed.

(** X1. No line that the loop hands to its [for] holds a line feed, however
    the bytes are cut into chunks. *)
Theorem no_embedded_terminator (chunks : list (list Z)) :
  Forall (fun line => 10 ∉ line) (decoded_lines loop_start chunks).
Proof. apply Forall_forall. intros line. apply decoded_lines_no_nl. Qed.

Lemma terminated_app (l1 l2 : list jsstring) :
  terminated (l1 ++ l2) = terminated l1 ++ terminated l2.
Proof. unfold terminated. by rewrite map_app, concat_app. Qed.

(** Joining the full lines with their terminators and the last line gives
    the text back. *)
Lemma split_nl_join (s : jsstring) : terminated (full_lines s) ++ last_line s = s.
Proof.
  unfold full_lines, last_line. induction s as [|c s IH]; [done|].
  cbn [split_nl]. destruct (Z.eqb_spec c 10) as [->|Hc].
  - destruct (split_nl s) as [|l ls] eqn:E; [by destruct (split_nl_nonempty s)|].
    change (10 :: (terminated (removelast (l :: ls)) ++ default [] (last (l :: ls))) = 10 :: s).
    by rewrite IH.
  - destruct (split_nl s) as [|l [|l' ls]] eqn:E.
    + by destruct (split_nl_nonempty s).
    + change (c :: (terminated (removelast [l]) ++ default [] (last [l])) = c :: s).
      by rewrite IH.
    + change (c :: (terminated (removelast (l :: l' :: ls)) ++
                    default [] (last (l :: l' :: ls))) = c :: s).
      by rewrite IH.
Qed.

Lemma read_lines_nil (st : LoopState) : 10 ∉ buffer st → read_lines st [] = (st, []).
Proof.
  intros Hst. unfold read_lines, decode. simpl.
  rewrite app_nil_r, split_nl_no_nl by done. simpl.
  by destruct st as [[d b] buf].
Qed.

Lemma loop_end_concat (st : LoopState) (chunks : list (list Z)) :
  10 ∉ buffer st → loop_end st chunks = (read_lines st (concat chunks)).1.
Proof.
  revert st. induction chunks as [|value rest IH]; intros st Hst; cbn [loop_end concat].
  - by rewrite read_lines_nil.
  - rewrite read_lines_app. pose proof (read_lines_buffer st value) as Hb.
    destruct (read_lines st value) as [st1 l1]. simpl in *.
    rewrite (IH st1 Hb). by destruct (read_lines st1 (concat rest)).
Qed.

(** X2. Nothing of the decoded text is lost or moved: the lines handed to
    the [for], each with its line feed, followed by what is left in [buffer],
    are the text that the decoder makes of all the bytes. *)
Theorem lines_rebuild_text (chunks : list (list Z)) :
  terminated (decoded_lines loop_start chunks) ++ buffer (loop_end loop_start chunks) =
  (decode new_TextDecoder (concat chunks)).2.
Proof.
  rewrite decoded_lines_concat, loop_end_concat by apply not_elem_of_nil.
  unfold read_lines. cbn [decoder buffer loop_start].
  destruct (decode new_TextDecoder (concat chunks)) as [dec text]. cbn.
  apply split_nl_join.
Qed.

Lemma lor_shiftl_big (cp x : Z) : 0 < cp → 0 ≤ x → 64 ≤ Z.lor (Z.shiftl cp 6) x.
Proof.
  intros Hcp Hx.
  assert (0 ≤ Z.lor (Z.shiftl cp 6) x) as Hy.
  { apply Z.lor_nonneg. split; [apply Z.shiftl_nonneg; lia|done]. }
  destruct (Z.lt_ge_cases (Z.lor (Z.shiftl cp 6) x) 64) as [Hlt|]; [exfalso|done].
  assert (Z.testbit (Z.lor (Z.shiftl cp 6) x) (Z.log2 cp + 6) = true) as Hbit.
  { pose proof (Z.log2_nonneg cp).
    rewrite Z.lor_spec, Z.shiftl_spec by lia.
    replace (Z.log2 cp + 6 - 6) with (Z.log2 cp) by lia.
    by rewrite Z.bit_log2. }
  rewrite Z.bits_above_log2 in Hbit; [done|done|].
  pose proof (Z.log2_nonneg cp).
  destruct (Z.eq_dec (Z.lor (Z.shiftl cp 6) x) 0) as [->|Hne]; [simpl; lia|].
  assert (Z.log2 (Z.lor (Z.shiftl cp 6) x) < 6); [|lia].
  apply Z.log2_lt_pow2; [lia|]. change (2 ^ 6) with 64. lia.
Qed.

(** [b & (2^n - 1)] for a byte in a known range. *)
Ltac land_range n :=
  match goal with
  | |- context [Z.land ?b ?m] =>
      change m with (Z.ones n); rewrite (Z.land_ones b n) by lia;
      let p := eval cbv in (2 ^ n) in
      change (2 ^ n) with p;
      pose proof (Z.div_mod b p ltac:(lia));
      pose proof (Z.mod_pos_bound b p ltac:(lia)); try lia
  end.

Lemma in_range_spec (lo hi b : Z) : in_range lo hi b = true ↔ lo ≤ b ≤ hi.
Proof. unfold in_range. rewrite andb_true_iff, !Z.leb_le. done. Qed.

Lemma in_range_false (lo hi b : Z) : in_range lo hi b = false ↔ ¬ (lo ≤ b ≤ hi).
Proof. rewrite <- in_range_spec. by destruct (in_range lo hi b). Qed.

Lemma count_not_newline (c : Z) (l : list Z) :
  c ≠ 10 → count is_newline (c :: l) = count is_newline l.
Proof. intros Hc. cbn. unfold is_newline. by destruct (Z.eqb_spec c 10). Qed.

(** A lead byte leaves the decoder in a state from which no line feed can
    come out of continuation bytes, and yields a line feed only when it is
    one. *)
Lemma utf8_lead_good (b : Z) :
  utf8_good (utf8_lead b).1 ∧ count is_newline (utf8_lead b).2 = count is_newline [b].
Proof.
  unfold utf8_lead.
  destruct (in_range 0 127 b) eqn:E1; [by split; [left|]|].
  apply in_range_false in E1.
  destruct (in_range 194 223 b) eqn:E2.
  { apply in_range_spec in E2. split; [|rewrite count_not_newline by lia; done].
    right. cbn. repeat split; try lia. left. land_range 5. }
  destruct (in_range 224 239 b) eqn:E3.
  { apply in_range_spec in E3. split; [|rewrite count_not_newline by lia; done].
    right. cbn. destruct (Z.eqb_spec b 224) as [Hb|Hb]; destruct (Z.eqb_spec b 237);
      repeat split; try lia.
    all: first [right; subst b; repeat split; lia | left; land_range 4]. }
  destruct (in_range 240 244 b) eqn:E4.
  { apply in_range_spec in E4. split; [|rewrite count_not_newline by lia; done].
    right. cbn. destruct (Z.eqb_spec b 240) as [Hb|Hb]; destruct (Z.eqb_spec b 244);
      repeat split; try lia.
    all: first [right; subst b; repeat split; lia | left; land_range 3]. }
  split; [by left|]. cbn [snd]. rewrite (count_not_newline b) by lia. done.
Qed.

Lemma utf8_handler_good (d : Utf8Decoder) (b : Z) :
  utf8_good d →
  utf8_good (utf8_handler d b).1 ∧
  count is_newline (utf8_handler d b).2 = count is_newline [b].
Proof.
  intros Hd. unfold utf8_handler.
  destruct (Z.eqb_spec (bytes_needed d) 0) as [Hn|Hn]; [apply utf8_lead_good|].
  destruct Hd as [Hd|(Hlo & Hhi & Hcp)]; [done|].
  destruct (in_range (lower_boundary d) (upper_boundary d) b) eqn:Eb; cbn [negb].
  - apply in_range_spec in Eb.
    assert (0 ≤ Z.land b 63) as Hx by (apply Z.land_nonneg; lia).
    rewrite (count_not_newline b) by lia.
    destruct Hcp as [Hcp|(Hcp & Hseen & Hlow)].
    + pose proof (lor_shiftl_big (code_point d) (Z.land b 63) Hcp Hx) as Hbig.
      destruct (Z.eqb_spec (bytes_seen d + 1) (bytes_needed d)).
      * split; [by left|]. cbn [snd]. by rewrite count_not_newline by lia.
      * split; [|done]. right. cbn. repeat split; try lia.
    + rewrite Hcp. rewrite Z.shiftl_0_l, Z.lor_0_l.
      destruct (Z.eqb_spec (bytes_seen d + 1) (bytes_needed d)); [done|].
      split; [|done]. right. cbn. repeat split; try lia. left. land_range 6.
  - pose proof (utf8_lead_good b) as [Hg Hc].
    destruct (utf8_lead b) as [d' out]. split; [done|].
    cbn [snd] in *. by rewrite count_not_newline.
Qed.

Lemma utf8_run_good (d : Utf8Decoder) (bytes : list Z) :
  utf8_good d →
  utf8_good (utf8_run d bytes).1 ∧
  count is_newline (utf8_run d bytes).2 = count is_newline bytes.
Proof.
  revert d. induction bytes as [|b bytes IH]; intros d Hd; [done|].
  cbn [utf8_run]. destruct (utf8_handler_good d b Hd) as [Hg Hc].
  destruct (utf8_handler d b) as [d1 o1]. cbn [fst snd] in *.
  destruct (IH d1 Hg) as [Hg' Hc']. destruct (utf8_run d1 bytes) as [d2 o2].
  cbn [fst snd] in *. split; [done|].
  rewrite count_app, Hc, Hc'. cbn. lia.
Qed.

Lemma serialize_newlines (seen : bool) (scalars : list Z) :
  count is_newline (serialize seen scalars).2 = count is_newline scalars.
Proof.
  destruct scalars as [|c rest]; [done|]. cbn [serialize snd].
  destruct (negb seen); [|done]. cbn [andb].
  destruct (Z.eqb_spec c 65279) as [->|]; [|done]. by rewrite count_not_newline.
Qed.

Lemma utf16_newlines (scalars : list Z) :
  count is_newline (concat (map utf16 scalars)) = count is_newline scalars.
Proof.
  induction scalars as [|cp scalars IH]; [done|].
  cbn [map concat]. rewrite count_app, IH. unfold utf16.
  destruct (Z.ltb_spec cp 65536); [cbn; lia|].
  assert (0 ≤ Z.shiftr (cp - 65536) 10) by (apply Z.shiftr_nonneg; lia).
  assert (0 ≤ Z.land (cp - 65536) 1023) by (apply Z.land_nonneg; lia).
  rewrite !count_not_newline by lia. done.
Qed.

Lemma decode_good (dec : TextDecoder) (value : list Z) :
  utf8_good (utf8 dec) →
  utf8_good (utf8 (decode dec value).1) ∧
  count is_newline (decode dec value).2 = count is_newline value.
Proof.
  intros Hd. unfold decode. destruct (utf8_run_good (utf8 dec) value Hd) as [Hg Hc].
  destruct (utf8_run (utf8 dec) value) as [d scalars]. cbn [fst snd] in *.
  pose proof (serialize_newlines (BOM_seen dec) scalars) as Hs.
  destruct (serialize (BOM_seen dec) scalars) as [seen kept]. cbn [fst snd] in *.
  split; [done|]. by rewrite utf16_newlines, Hs.
Qed.

Lemma split_nl_length (s : jsstring) :
  length (full_lines s) = count is_newline s.
Proof.
  unfold full_lines. induction s as [|c s IH]; [done|].
  cbn [split_nl count]. unfold is_newline at 1.
  destruct (Z.eqb_spec c 10).
  - destruct (split_nl s) eqn:E; [by destruct (split_nl_nonempty s)|].
    cbn [removelast length] in *. by rewrite IH.
  - destruct (split_nl s) as [|l [|l' ls]] eqn:E; [by destruct (split_nl_nonempty s)|..];
      cbn [removelast length] in *; by rewrite <- IH.
Qed.

Lemma count_no_newline (s : jsstring) : 10 ∉ s → count is_newline s = 0%nat.
Proof.
  induction s as [|c s IH]; [done|]. rewrite not_elem_of_cons. intros [Hc Hs].
  rewrite count_not_newline by done. by apply IH.
Qed.

Lemma read_lines_good (st : LoopState) (value : list Z) :
  loop_good st →
  loop_good (read_lines st value).1 ∧
  length (read_lines st value).2 = count is_newline value.
Proof.
  intros [Hd Hb]. unfold read_lines.
  destruct (decode_good (decoder st) value Hd) as [Hg Hc].
  destruct (decode (decoder st) value) as [dec text]. cbn [fst snd] in *.
  split; [split; [done|apply last_line_no_nl]|].
  change (length (full_lines (buffer st ++ text)) = count is_newline value).
  by rewrite split_nl_length, count_app, count_no_newline, Hc.
Qed.

Lemma loop_start_good : loop_good loop_start.
Proof. split; [by left|apply not_elem_of_nil]. Qed.

Lemma loop_end_good (st : LoopState) (chunks : list (list Z)) :
  loop_good st → loop_good (loop_end st chunks).
Proof.
  revert st. induction chunks as [|value rest IH]; intros st Hst; [done|].
  cbn [loop_end]. apply IH. by apply read_lines_good.
Qed.

Lemma decoded_lines_length (st : LoopState) (chunks : list (list Z)) :
  loop_good st →
  length (decoded_lines st chunks) = count is_newline (concat chunks).
Proof.
  revert st. induction chunks as [|value rest IH]; intros st Hst; [done|].
  cbn [decoded_lines concat]. destruct (read_lines_good st value Hst) as [Hg Hl].
  destruct (read_lines st value) as [st1 l1]. cbn [fst snd] in *.
  by rewrite length_app, count_app, Hl, IH.
Qed.

(** X3. The loop hands over exactly one line for each line feed byte of the
    stream: no multi-byte sequence, malformed or cut by a chunk boundary,
    adds or hides a line. *)
Theorem one_line_per_newline_byte (chunks : list (list Z)) :
  length (decoded_lines loop_start chunks) = count is_newline (concat chunks).
Proof. apply decoded_lines_length, loop_start_good. Qed.

Section MoreWithParser.
Variable JSON_parse : jsstring → option JsValue.

Lemma read_loop_app (st : LoopState) (chunks more : list (list Z)) :
  read_loop JSON_parse st (chunks ++ more) =
  ((read_loop JSON_parse st chunks).1 ++
     (read_loop JSON_parse (loop_end st chunks) more).1,
   (read_loop JSON_parse st chunks).2 ++
     (read_loop JSON_parse (loop_end st chunks) more).2).
Proof.
  revert st. induction chunks as [|value rest IH]; intros st.
  - cbn. by destruct (read_loop JSON_parse st more).
  - cbn [app read_loop loop_end].
    destruct (read_lines st value) as [st1 l1]. cbn [fst]. rewrite IH.
    destruct (process_lines JSON_parse l1) as [e1 w1].
    destruct (read_loop JSON_parse st1 rest) as [e2 w2]. cbn [fst snd].
    by rewrite !app_assoc.
Qed.

(** X5. What is enqueued and logged for a stream is the beginning of what
    is enqueued and logged when more chunks follow: later chunks only add
    events, they never change or drop the earlier ones. *)
Theorem events_only_appended (chunks more : list (list Z)) (e e' : ReadEnd) :
  enqueued (transformAgentStreamToUIStream JSON_parse {| chunks := chunks; ending := e |})
    `prefix_of`
  enqueued (transformAgentStreamToUIStream JSON_parse
              {| chunks := chunks ++ more; ending := e' |}) ∧
  console (transformAgentStreamToUIStream JSON_parse {| chunks := chunks; ending := e |})
    `prefix_of`
  console (transformAgentStreamToUIStream JSON_parse
             {| chunks := chunks ++ more; ending := e' |}).
Proof.
  unfold transformAgentStreamToUIStream. cbn [Stream.chunks ending].
  rewrite read_loop_app.
  destruct (read_loop JSON_parse loop_start chunks) as [e1 w1].
  destruct (read_loop JSON_parse (loop_end loop_start chunks) more) as [e2 w2].
  cbn. split; by eexists.
Qed.

(** X4. Bytes after the last line feed yield nothing: a last chunk without
    a line feed byte leaves the returned stream as it is, so a final line
    that the agent service did not terminate is discarded at close. *)
Theorem unterminated_tail_dropped (chunks : list (list Z)) (tail : list Z) (e : ReadEnd) :
  10 ∉ tail →
  transformAgentStreamToUIStream JSON_parse {| chunks := chunks ++ [tail]; ending := e |} =
  transformAgentStreamToUIStream JSON_parse {| chunks := chunks; ending := e |}.
Proof.
  intros Htail. unfold transformAgentStreamToUIStream. cbn [Stream.chunks ending].
  rewrite read_loop_app. cbn [read_loop].
  destruct (read_lines_good (loop_end loop_start chunks) tail) as [_ Hlen].
  { apply loop_end_good, loop_start_good. }
  rewrite count_no_newline in Hlen by done.
  destruct (read_lines (loop_end loop_start chunks) tail) as [st lines]. cbn [snd] in Hlen.
  apply nil_length_inv in Hlen as ->. cbn.
  destruct (read_loop JSON_parse loop_start chunks) as [e1 w1]. cbn.
  by rewrite !app_nil_r.
Qed.

Lemma translate_length (ev : BackendEvent) : (length (translate ev) ≤ 1)%nat.
Proof.
  destruct (translate_cases ev) as
    [[_ ->]|[(_ & _ & ->)|[(_ & _ & _ & [->|(l & n & ->)])|(_ & _ & ->)]]];
    try destruct (appends ev); cbn; lia.
Qed.

Lemma process_line_length (line : jsstring) :
  (length (process_line JSON_parse line).1 + length (process_line JSON_parse line).2 ≤ 1)%nat.
Proof.
  unfold process_line.
  destruct (bool_decide (trim line = []) || startsWith (str ":") line); [cbn; lia|].
  destruct (startsWith (str "data: ") line); [|cbn; lia].
  destruct (JSON_parse (slice 6 line)) as [data|]; [|cbn; lia].
  pose proof (translate_length data) as H. unfold translate in H.
  destruct (switch_data data); cbn in *; lia.
Qed.

Lemma process_lines_length (lines : list jsstring) :
  (length (process_lines JSON_parse lines).1 + length (process_lines JSON_parse lines).2
   ≤ length lines)%nat.
Proof.
  induction lines as [|line lines IH]; [cbn; lia|]. cbn [process_lines].
  pose proof (process_line_length line) as H.
  destruct (process_line JSON_parse line) as [e w].
  destruct (process_lines JSON_parse lines) as [es ws]. cbn [fst snd length] in *.
  rewrite !length_app. lia.
Qed.

(** X6. A line yields at most one event or one warning, never both, so the
    events and warnings of a stream are together at most as many as its line
    feed bytes. *)
Theorem one_output_per_line (agentStream : AgentStream) :
  let out := transformAgentStreamToUIStream JSON_parse agentStream in
  (∀ line, (length (process_line JSON_parse line).1 +
            length (process_line JSON_parse line).2 ≤ 1)%nat) ∧
  (length (enqueued out) + length (console out)
   ≤ count is_newline (concat (chunks agentStream)))%nat.
Proof.
  cbn. split; [apply process_line_length|].
  rewrite transform_lines. cbn [enqueued console].
  rewrite <- (decoded_lines_length loop_start) by apply loop_start_good.
  apply process_lines_length.
Qed.

(** X7. A data line whose payload parses to something that is not a token,
    sources or done event enqueues nothing; it is silent for a
    classification event, an unknown type, an object without a type, a number,
    a string, a boolean or an array, and logs one warning, the TypeError of
    reading [type], when the payload is [null]. *)
Theorem unhandled_payload (payload : jsstring) (ev : BackendEvent) :
  JSON_parse payload = Some ev →
  has_type "token" ev = false → has_type "sources" ev = false → has_type "done" ev = false →
  process_line JSON_parse (data_line payload) =
  ([], match ev with
       | JNull => [{| warned_line := data_line payload; parseError := TypeError |}]
       | _ => []
       end).
Proof.
  intros Hp Ht Hs Hd. unfold data_line. rewrite process_data_line, Hp.
  unfold has_type, event_type in *. unfold switch_data.
  destruct ev as [| | | | |fields]; try done.
  cbn in *. rewrite Ht, Hs, Hd.
  by destruct (strict_eq_str (lookup_field (str "type") fields) (str "classification")).
Qed.

(** X24. A data line whose payload is a token event enqueues one text-delta
    event with the content as it is, string or not, and logs nothing, unless
    the content cannot be appended to a string: then it enqueues nothing and
    logs the line with the TypeError. *)
Theorem token_line_cases (payload : jsstring) (ev : BackendEvent) :
  JSON_parse payload = Some ev → has_type "token" ev = true →
  process_line JSON_parse (data_line payload) =
  if appends ev then ([TextDelta (event_content ev)], [])
  else ([], [{| warned_line := data_line payload; parseError := TypeError |}]).
Proof.
  intros Hp Ht. unfold data_line. rewrite process_data_line, Hp.
  apply (token_switch ev (fun events => (events, []))
           (fun e => ([], [{| warned_line := str "data: " ++ payload; parseError := e |}])) Ht).
Qed.
End MoreWithParser.

Lemma token_line_cases_witness :
  let number := quoted "{'type':'token','content':42}" in
  let array := quoted "{'type':'token','content':['a',[{'toString':null}]]}" in
  process_line json_parse (data_line number) = ([TextDelta (Some (JNum 42 0))], []) ∧
  process_line json_parse (data_line array) =
    ([], [{| warned_line := data_line array; parseError := TypeError |}]).
Proof.
  split.
  - rewrite (token_line_cases json_parse _
               (JObject [(str "type", JString (str "token")); (str "content", JNum 42 0)]));
      reflexivity.
  - rewrite (token_line_cases json_parse _
               (JObject [(str "type", JString (str "token"));
                         (str "content",
                          JArray [JString (str "a");
                                  JArray [JObject [(str "toString", JNull)]]])]));
      reflexivity.
Defined.

Lemma map_source_cases (s : JsValue) :
  (s = JNull ∧ map_source s = Throw TypeError) ∨
  (s ≠ JNull ∧ ∃ a, map_source s = Normal a).
Proof.
  destruct s; [by left|right; split; [done|eexists; reflexivity]..].
Qed.

Lemma mapM_map_source (l : list JsValue) :
  (Forall (fun s => s ≠ JNull) l →
   ∃ anns, mapM map_source l = Normal anns ∧
           Forall2 (fun s a => map_source s = Normal a) l anns) ∧
  (JNull ∈ l → mapM map_source l = Throw TypeError).
Proof.
  induction l as [|s l [IH1 IH2]]; split.
  - intros _. exists []. by split; [|constructor].
  - by intros ?%elem_of_nil.
  - intros [Hs Hl]%Forall_cons. destruct (IH1 Hl) as (anns & Hm & Hall).
    destruct (map_source_cases s) as [[? _]|[_ [a Ha]]]; [done|].
    exists (a :: anns). cbn [mapM]. rewrite Ha, Hm. split; [done|by constructor].
  - intros Hin. cbn [mapM].
    destruct (map_source_cases s) as [[_ ->]|[Hs [a ->]]]; [done|].
    apply elem_of_cons in Hin as [<-|Hin]; [done|]. cbn. by rewrite (IH2 Hin).
Qed.

(** X8. The sources case enqueues one data event with one annotation for
    each source, in order, and their number, when the array has no [null]; it
    throws, so that nothing is enqueued, when some source is [null] or when
    [sources] is a truthy value that is not an array; and it enqueues the data
    event of no sources when [sources] is missing or falsy. *)
Theorem sources_event_cases :
  (∀ l, Forall (fun s => s ≠ JNull) l →
     ∃ anns, sources_event (Some (JArray l)) = Normal [Data anns (length l)] ∧
             Forall2 (fun s a => map_source s = Normal a) l anns) ∧
  (∀ l, JNull ∈ l → sources_event (Some (JArray l)) = Throw TypeError) ∧
  (∀ v, (∀ l, v ≠ Some (JArray l)) →
     sources_event v = if truthy v then Throw TypeError else Normal [Data [] 0]).
Proof.
  split; [|split].
  - intros l Hl. destruct (proj1 (mapM_map_source l) Hl) as (anns & Hm & Hall).
    exists anns. unfold sources_event. cbn [truthy]. by rewrite Hm.
  - intros l Hin. unfold sources_event. cbn [truthy].
    by rewrite (proj2 (mapM_map_source l) Hin).
  - intros v Hv. unfold sources_event. destruct (truthy v) eqn:E; [|done].
    destruct v as [[| | | |l|]|]; try done. by destruct (Hv l).
Qed.

Lemma js_or_truthy (v : JsProp) (d : JsValue) :
  truthy (Some d) = true → truthy (Some (js_or v d)) = true.
Proof.
  intros Hd. unfold js_or. destruct v as [x|]; [|done].
  by destruct (truthy (Some x)) eqn:E.
Qed.

(** X9. The title and the url of an annotation are never missing or empty:
    both are truthy, and they are either the same value, the source of the
    metadata, or the defaults [Document] and [#]. *)
Theorem annotation_title_url (s : JsValue) (a : SourceAnnotation) :
  map_source s = Normal a →
  truthy (Some (title a)) = true ∧ truthy (Some (url a)) = true ∧
  (title a = url a ∨ (title a = JString (str "Document") ∧ url a = JString (str "#"))).
Proof.
  unfold map_source. destruct (get_prop s (str "metadata")) as [metadata|] eqn:Em; [|done].
  assert (∃ c, get_prop s (str "content") = Normal c) as [c ->] by (destruct s; by eexists).
  assert (∃ r, get_prop s (str "relevance_score") = Normal r) as [r ->]
    by (destruct s; by eexists).
  cbn. intros [= <-]. cbn [title url].
  split; [by apply js_or_truthy|]. split; [by apply js_or_truthy|].
  unfold js_or. destruct (opt_chain metadata (str "source")) as [x|]; [|by right].
  destruct (truthy (Some x)); [by left|by right].
Qed.

Lemma utf8_run_ascii (bytes : list Z) :
  Forall (fun b => 0 ≤ b ≤ 127) bytes → utf8_run utf8_initial bytes = (utf8_initial, bytes).
Proof.
  induction 1 as [|b bytes Hb _ IH]; [done|].
  cbn [utf8_run]. unfold utf8_handler. cbn [bytes_needed utf8_initial Z.eqb].
  unfold utf8_lead. rewrite (proj2 (in_range_spec 0 127 b) Hb). by rewrite IH.
Qed.

Lemma utf16_ascii (bytes : list Z) :
  Forall (fun b => 0 ≤ b ≤ 127) bytes → concat (map utf16 bytes) = bytes.
Proof.
  induction 1 as [|b bytes Hb _ IH]; [done|]. cbn [map concat]. rewrite IH.
  unfold utf16. destruct (Z.ltb_spec b 65536); [done|lia].
Qed.

Lemma decode_ascii (bytes : list Z) :
  Forall (fun b => 0 ≤ b ≤ 127) bytes → (decode new_TextDecoder bytes).2 = bytes.
Proof.
  intros Hb. unfold decode. cbn [utf8 new_TextDecoder BOM_seen].
  rewrite utf8_run_ascii by done.
  destruct bytes as [|b bytes]; [done|]. cbn [serialize negb andb].
  apply Forall_cons in Hb as Hb'. destruct Hb' as [Hb' _].
  destruct (Z.eqb_spec b 65279); [lia|]. cbn [snd]. by apply utf16_ascii.
Qed.

(** X23. For a stream of ASCII bytes the lines handed to the [for] are the
    segments of the bytes that end in a line feed, in order and unchanged,
    however the bytes are cut into chunks. *)
Theorem ascii_lines (chunks : list (list Z)) :
  Forall (fun b => 0 ≤ b ≤ 127) (concat chunks) →
  decoded_lines loop_start chunks = full_lines (concat chunks).
Proof.
  intros Hb. rewrite decoded_lines_concat by apply not_elem_of_nil.
  unfold read_lines. cbn [decoder buffer loop_start].
  pose proof (decode_ascii _ Hb) as Hd.
  destruct (decode new_TextDecoder (concat chunks)) as [dec text]. cbn in *. by subst.
Qed.

Lemma ascii_lines_witness :
  decoded_lines loop_start [take 20 scenario_A_bytes; drop 20 scenario_A_bytes] =
  [quoted "data: {'type':'token','content':'Hi'}"; []; quoted "data: {'type':'done'}"; []].
Proof.
  rewrite ascii_lines; [reflexivity|].
  apply (bool_decide_unpack _). vm_compute. exact I.
Defined.

Lemma unterminated_tail_dropped_witness :
  transformAgentStreamToUIStream json_parse
    {| chunks := [scenario_A_bytes; quoted "data: {'type':'done'}"]; ending := read_done |} =
  transformAgentStreamToUIStream json_parse
    {| chunks := [scenario_A_bytes]; ending := read_done |}.
Proof.
  apply (unterminated_tail_dropped json_parse [scenario_A_bytes]).
  apply (bool_decide_unpack _). vm_compute. exact I.
Defined.

Lemma unhandled_payload_witness :
  process_line json_parse (data_line (str "null")) =
  ([], [{| warned_line := data_line (str "null"); parseError := TypeError |}]) ∧
  process_line json_parse (data_line (quoted "{'type':'classification','classification':'factual'}"))
  = ([], []).
Proof.
  split.
  - apply (unhandled_payload json_parse (str "null") JNull); reflexivity.
  - apply (unhandled_payload json_parse _
             (JObject [(str "type", JString (str "classification"));
                       (str "classification", JString (str "factual"))])); reflexivity.
Defined.

Lemma sources_event_cases_witness :
  (∃ anns, sources_event (Some (JArray [JObject []; JNum 1 0])) = Normal [Data anns 2]) ∧
  sources_event (Some (JArray [JObject []; JNull])) = Throw TypeError ∧
  sources_event (Some (JString (str "none"))) = Throw TypeError ∧
  sources_event None = Normal [Data [] 0].
Proof.
  destruct sources_event_cases as (Hok & Hnull & Hother).
  split; [|split; [|split]].
  - destruct (Hok [JObject []; JNum 1 0]) as (anns & H & _); [|by exists anns].
    repeat constructor; discriminate.
  - apply Hnull. apply list_elem_of_further, list_elem_of_here.
  - rewrite Hother; [reflexivity|discriminate].
  - rewrite Hother; [reflexivity|discriminate].
Defined.

Lemma annotation_title_url_witness :
  ∃ a, map_source (JObject [(str "content", JString (str "text"))]) = Normal a ∧
       title a = JString (str "Document") ∧ truthy (Some (url a)) = true.
Proof.
  eexists. split; [reflexivity|]. split; [reflexivity|].
  eapply (annotation_title_url (JObject [(str "content", JString (str "text"))])).
  reflexivity.
Defined.

End StreamMore.

(** * More properties of the evaluation store *)

Module PollerMore.
Import Poller PollerFacts.


(** X10. In every state that the store can reach, the live interval timers
    are exactly the entries of [pollingIntervals]: the job has the entry [t]
    if and only if [t] is a live timer whose callback polls that job. *)
Theorem timers_are_handles (events : list Event) (jobId : string) (t : TimerId) :
  pollingIntervals (store (run events)) !! jobId = Some t ↔
  ∃ ms, timers (run events) !! t = Some (jobId, ms).
Proof.
  pose proof (consistent_run events) as Hw. split.
  - apply (handle_timer _ Hw).
  - intros [ms Hms]. by apply (timer_handle _ Hw) in Hms.
Qed.

Lemma stopAllPolling_timers (w : World) : consistent w → timers (stopAllPolling w) = ∅.
Proof.
  intros Hw. apply consistent_stopAllPolling in Hw. apply map_empty. intros t.
  destruct (timers (stopAllPolling w) !! t) as [[j ms]|] eqn:E; [|done].
  apply (timer_handle _ Hw) in E. cbn in E. by rewrite lookup_empty in E.
Qed.

Lemma restarts_starts (jobId : string) (later : list Event) :
  Forall (fun ev => starts_polling ev = false) later →
  Forall (fun ev => restarts jobId ev = false) later.
Proof. intros H. eapply Forall_impl; [exact H|]. by intros [ ]. Qed.

(** X11. After [stopAllPolling] in a reachable state no handle and no live
    timer is left; until [startPolling] is called again no tick sends a status
    request, so that the status requests sent for a job are those of the calls
    of [fetchJob] for it. *)
Theorem stopAllPolling_clears (events later : list Event) (jobId : string) :
  let w := stopAllPolling (run events) in
  pollingIntervals (store w) = ∅ ∧ timers w = ∅ ∧
  (Forall (fun ev => starts_polling ev = false) later →
   sent (getJobStatus jobId) (foldl step w later) =
   (sent (getJobStatus jobId) w + fetchJob_calls jobId later)%nat).
Proof.
  pose proof (consistent_run events) as Hw. cbn zeta.
  split; [done|]. split; [by apply stopAllPolling_timers|].
  intros Hlater. apply stopped_stays_stopped.
  - by apply consistent_stopAllPolling.
  - apply lookup_empty.
  - by apply restarts_starts.
Qed.

(** X12. After [reset] in a reachable state the store is the initial one
    and no live timer is left; until [startPolling] is called again no tick
    sends a status request, so that the status requests sent for a job are
    those of the calls of [fetchJob] for it. *)
Theorem reset_clears (events later : list Event) (jobId : string) :
  let w := reset (run events) in
  store w = initial_state ∧ timers w = ∅ ∧
  (Forall (fun ev => starts_polling ev = false) later →
   sent (getJobStatus jobId) (foldl step w later) =
   (sent (getJobStatus jobId) w + fetchJob_calls jobId later)%nat).
Proof.
  pose proof (consistent_run events) as Hw. cbn zeta.
  split; [done|]. split; [by apply stopAllPolling_timers|].
  intros Hlater. apply stopped_stays_stopped.
  - apply (consistent_same (stopAllPolling (run events))); [reflexivity..|].
    by apply consistent_stopAllPolling.
  - apply lookup_empty.
  - by apply restarts_starts.
Qed.

Lemma store_eq (s1 s2 : EvaluationState) :
  jobs s1 = jobs s2 → currentResults s1 = currentResults s2 →
  isLoading s1 = isLoading s2 → error s1 = error s2 →
  pollingIntervals s1 = pollingIntervals s2 → s1 = s2.
Proof. destruct s1, s2. cbn. by intros -> -> -> -> ->. Qed.

Lemma stopPolling_timers (jobId : string) (w : World) :
  timers (stopPolling jobId w) =
  match pollingIntervals (store w) !! jobId with
  | Some t => delete t (timers w)
  | None => timers w
  end.
Proof. unfold stopPolling. by destruct (pollingIntervals (store w) !! jobId). Qed.

Lemma stopPolling_absent (jobId : string) (w : World) :
  pollingIntervals (store w) !! jobId = None → stopPolling jobId w = w.
Proof. intros H. unfold stopPolling. by rewrite H. Qed.

(** X13. For a job that has no handle, [stopPolling] after [startPolling]
    gives back the store and the timers as they were and sends nothing; a
    second [stopPolling] changes nothing. *)
Theorem stop_undoes_start (events : list Event) (jobId : string) (intervalMs : Z) :
  let w := run events in
  let w' := stopPolling jobId (startPolling jobId intervalMs w) in
  pollingIntervals (store w) !! jobId = None →
  store w' = store w ∧ timers w' = timers w ∧ requests w' = requests w ∧
  stopPolling jobId w' = w'.
Proof.
  intros w w' Hnone. pose proof (consistent_run events) as Hw. fold w in Hw.
  assert (timers w !! next_timer w = None) as Hfresh.
  { destruct (timers w !! next_timer w) eqn:E; [|done].
    assert (next_timer w < next_timer w)%positive by (apply (timer_below_next _ Hw); eauto).
    lia. }
  assert (startPolling jobId intervalMs w =
          set_store (set_pollingIntervals (<[jobId := next_timer w]> (pollingIntervals (store w))))
            (set_timers (<[next_timer w := (jobId, intervalMs)]> (timers w))
               (Pos.succ (next_timer w)) w)) as Hstart.
  { unfold startPolling. rewrite decide_False; [done|]. rewrite Hnone. by intros [? ?]. }
  destruct (stopPolling_requests jobId (startPolling jobId intervalMs w))
    as (Hr & Hj & Hc & Hl & He).
  pose proof (stopPolling_lookup jobId (startPolling jobId intervalMs w)) as Hm.
  pose proof (stopPolling_timers jobId (startPolling jobId intervalMs w)) as Ht.
  fold w' in Hr, Hj, Hc, Hl, He, Hm, Ht. rewrite Hstart in Hr, Hj, Hc, Hl, He, Hm, Ht.
  cbn in Hr, Hj, Hc, Hl, He, Hm, Ht.
  rewrite lookup_insert_eq in Ht.
  rewrite delete_insert_eq, (delete_id _ _ Hnone) in Hm.
  rewrite delete_insert_eq, (delete_id _ _ Hfresh) in Ht.
  split; [by apply store_eq|]. split; [done|]. split; [done|].
  apply stopPolling_absent. by rewrite Hm.
Qed.


Lemma status_settle_jobs (call : CallId) (jobId : string) (job : EvaluationJob) (w : World) :
  status_calls w !! call = Some jobId →
  jobs (store (status_settle call (resolved job) w)) =
  map (fun j => if decide (job_id j = jobId) then job else j) (jobs (store w)).
Proof.
  intros Hcall. unfold status_settle. rewrite Hcall.
  destruct (is_terminal (status job)); [|done].
  destruct (decide (status job = completed)); cbn;
    by rewrite (proj1 (proj2 (stopPolling_requests _ _))).
Qed.

(** X14. A settled status request replaces the records of its job in place:
    the list keeps its length and order, every other record stays, and when no
    record has the job's id the list is unchanged, the fetched job is not
    added. *)
Theorem job_update_shape (call : CallId) (jobId : string) (job : EvaluationJob) (w : World) :
  let w' := status_settle call (resolved job) w in
  status_calls w !! call = Some jobId →
  length (jobs (store w')) = length (jobs (store w)) ∧
  (∀ i j, jobs (store w) !! i = Some j →
          jobs (store w') !! i = Some (if decide (job_id j = jobId) then job else j)) ∧
  (Forall (fun j => job_id j ≠ jobId) (jobs (store w)) → jobs (store w') = jobs (store w)).
Proof.
  intros w' Hcall. unfold w'. rewrite (status_settle_jobs _ _ _ _ Hcall).
  split; [by rewrite length_map|]. split.
  - intros i j Hi. change (map ?f ?l) with (f <$> l). by rewrite list_lookup_fmap, Hi.
  - induction 1 as [|j js Hj _ IH]; [done|]. cbn. rewrite IH. by rewrite decide_False.
Qed.

(** A reply with a queued or running job changes the job records only:
    the handle, the timers, the results and the requests are as before, and
    the next tick of the job's timer sends one more status request. *)
Lemma running_status_keeps_polling (call : CallId) (jobId : string) (job : EvaluationJob)
    (w : World) :
  let w' := status_settle call (resolved job) w in
  status_calls w !! call = Some jobId →
  status job = queued ∨ status job = running →
  pollingIntervals (store w') = pollingIntervals (store w) ∧
  timers w' = timers w ∧ requests w' = requests w ∧
  currentResults (store w') = currentResults (store w) ∧
  status_calls w' = delete call (status_calls w) ∧
  ∀ t, sent (getJobStatus jobId) (tick t w') =
       (sent (getJobStatus jobId) w +
        match timers w !! t with
        | Some (j, _) => if decide (j = jobId) then 1 else 0
        | None => 0
        end)%nat.
Proof.
  intros w' Hcall Hstatus.
  assert (w' = set_store (fun s =>
            set_jobs (map (fun j => if decide (job_id j = jobId) then job else j) (jobs s)) s)
            {| store := store w; timers := timers w; next_timer := next_timer w;
               status_calls := delete call (status_calls w);
               job_calls := job_calls w;
               results_calls := results_calls w; next_call := next_call w;
               requests := requests w; console_errors := console_errors w |}) as ->.
  { unfold w', status_settle. rewrite Hcall.
    by destruct Hstatus as [-> | ->]. }
  repeat split. intros t. by rewrite sent_tick.
Qed.

(** X16. Whatever a status request of one job settles to, the handle and the
    timer of every other job are as before. *)
Theorem other_jobs_untouched (events : list Event) (call : CallId) (jobId other : string)
    (reply : Settled EvaluationJob) :
  let w := run events in
  let w' := status_settle call reply w in
  status_calls w !! call = Some jobId →
  other ≠ jobId →
  pollingIntervals (store w') !! other = pollingIntervals (store w) !! other ∧
  handles other w' = handles other w.
Proof.
  intros w w' Hcall Hne. pose proof (consistent_run events) as Hw. fold w in Hw.
  unfold w', status_settle. rewrite Hcall.
  assert (∀ w0, consistent w0 →
            pollingIntervals (store w0) = pollingIntervals (store w) →
            timers w0 = timers w →
            pollingIntervals (store (stopPolling jobId w0)) !! other =
              pollingIntervals (store w) !! other ∧
            handles other (stopPolling jobId w0) = handles other w) as Hstop.
  { intros w0 Hw0 Hm Ht. rewrite stopPolling_lookup, lookup_delete_ne, Hm by done.
    split; [done|]. rewrite stopPolling_other by done. unfold handles. by rewrite Ht. }
  destruct reply as [job|message].
  - destruct (is_terminal (status job)); [|done].
    destruct (decide (status job = completed)).
    + change (pollingIntervals (store (fetchResults jobId ?x))) with (pollingIntervals (store x)).
      change (handles other (fetchResults jobId ?x)) with (handles other x).
      apply Hstop; [|done..]. by apply (consistent_same w).
    + apply Hstop; [|done..]. by apply (consistent_same w).
  - apply Hstop; [|done..]. by apply (consistent_same w).
Qed.

Lemma stopPolling_calls (jobId : string) (w : World) :
  next_call (stopPolling jobId w) = next_call w ∧
  status_calls (stopPolling jobId w) = status_calls w ∧
  results_calls (stopPolling jobId w) = results_calls w.
Proof. unfold stopPolling. by destruct (pollingIntervals (store w) !! jobId). Qed.

(** X17. [stopPolling] does not cancel a status request in flight: when it
    settles with a completed job after the handle was removed, the job record
    is still replaced and a results request is still sent. *)
Theorem late_reply_still_applied (events : list Event) (call : CallId) (jobId : string)
    (job : EvaluationJob) :
  let w := stopPolling jobId (run events) in
  let w' := status_settle call (resolved job) w in
  status_calls (run events) !! call = Some jobId →
  status job = completed →
  jobs (store w') =
    map (fun j => if decide (job_id j = jobId) then job else j) (jobs (store (run events))) ∧
  requests w' = requests (run events) ++ [getJobResults jobId] ∧
  isLoading (store w') = true ∧
  results_calls w' !! next_call (run events) = Some jobId.
Proof.
  intros w w' Hcall Hstatus.
  destruct (stopPolling_calls jobId (run events)) as (Hn & Hs & _). fold w in Hn, Hs.
  assert (status_calls w !! call = Some jobId) as Hcall' by by rewrite Hs.
  destruct (stopPolling_requests jobId (run events)) as (Hr & Hj & _). fold w in Hr, Hj.
  split; [unfold w'; by rewrite (status_settle_jobs _ _ _ _ Hcall'), Hj|].
  unfold w', status_settle. rewrite Hcall', Hstatus.
  change (is_terminal completed) with true. cbn match. rewrite decide_True by done.
  match goal with |- context [fetchResults jobId (stopPolling jobId ?x)] => set (w1 := x) end.
  change (requests (fetchResults jobId ?x)) with (requests x ++ [getJobResults jobId]).
  change (isLoading (store (fetchResults jobId ?x))) with true.
  change (results_calls (fetchResults jobId ?x))
    with (<[next_call x := jobId]> (results_calls x)).
  rewrite (proj1 (stopPolling_requests _ _)), (proj1 (stopPolling_calls _ _)).
  change (requests w1) with (requests w). change (next_call w1) with (next_call w).
  rewrite Hr, Hn, lookup_insert_eq. done.
Qed.

(** X18. After [handleSubmit] gets a job id back, the job list begins with
    the new queued record, the job has exactly one live timer, and the reply
    to the first tick of that timer replaces that record. *)
Theorem submit_then_poll (events : list Event) (params : EvaluationRequest)
    (response : SubmitResponse) :
  let w := run events in
  let w2 := handleSubmit_settle params (resolved response) w in
  let jobId := response_job_id response in
  jobs (store w2) = submitted_job params response :: jobs (store w) ∧
  isLoading (store w2) = false ∧
  size (handles jobId w2) = 1%nat ∧
  ∃ t, pollingIntervals (store w2) !! jobId = Some t ∧
       ∀ job, head (jobs (store (status_settle (next_call w2) (resolved job) (tick t w2))))
              = Some job.
Proof.
  intros w w2 jobId. pose proof (consistent_run events) as Hw. fold w in Hw.
  set (w1 := set_store (fun _ =>
                (submitEvaluation_settle params (resolved response) (store w)).1) w).
  assert (consistent w1) as Hw1 by by apply (consistent_same w).
  assert (w2 = startPolling jobId 2000 w1) as Hw2 by reflexivity.
  assert (consistent w2) as Hc2 by (rewrite Hw2; by apply consistent_startPolling).
  assert (jobs (store w2) = submitted_job params response :: jobs (store w)) as Hjobs.
  { rewrite Hw2. unfold startPolling.
    by destruct (decide (is_Some (pollingIntervals (store w1) !! jobId))). }
  assert (∃ t, pollingIntervals (store w2) !! jobId = Some t) as [t Ht].
  { rewrite Hw2. unfold startPolling.
    destruct (decide (is_Some (pollingIntervals (store w1) !! jobId))) as [[t Ht]|_]; [eauto|].
    cbn. rewrite lookup_insert_eq. eauto. }
  split; [done|]. split.
  { rewrite Hw2. unfold startPolling.
    by destruct (decide (is_Some (pollingIntervals (store w1) !! jobId))). }
  split; [rewrite handles_size by done; by rewrite Ht|].
  exists t. split; [done|]. intros job.
  destruct (handle_timer _ Hc2 _ _ Ht) as [ms Hms].
  rewrite (status_settle_jobs _ jobId).
  - unfold tick. rewrite Hms. cbn [store]. rewrite Hjobs. cbn.
    by rewrite decide_True.
  - unfold tick. rewrite Hms. cbn. by rewrite lookup_insert_eq.
Qed.

Lemma status_settle_sent (jobId : string) (call : CallId) (reply : Settled EvaluationJob)
    (w : World) :
  sent (getJobStatus jobId) (status_settle call reply w) = sent (getJobStatus jobId) w.
Proof.
  unfold status_settle. destruct (status_calls w !! call) as [j|]; [|done].
  destruct reply as [job|message].
  - destruct (is_terminal (status job)); [|done].
    destruct (decide (status job = completed)).
    + rewrite sent_results_request. unfold sent.
      by rewrite (proj1 (stopPolling_requests _ _)).
    + unfold sent. by rewrite (proj1 (stopPolling_requests _ _)).
  - unfold sent. by rewrite (proj1 (stopPolling_requests _ _)).
Qed.

Lemma step_sent (jobId : string) (ev : Event) (w : World) :
  (sent (getJobStatus jobId) (step w ev)
   ≤ sent (getJobStatus jobId) w + (if is_tick ev then 1 else 0) +
     (if fetches_job jobId ev then 1 else 0))%nat.
Proof.
  destruct ev as [j ms|j| |j|j|t|call reply|call reply|call reply|js rs l e];
    cbn [step is_tick fetches_job].
  - unfold startPolling, sent. destruct (decide _); cbn; lia.
  - unfold sent. rewrite (proj1 (stopPolling_requests _ _)). lia.
  - unfold sent. cbn. lia.
  - rewrite sent_fetchJob. lia.
  - rewrite sent_results_request. lia.
  - rewrite sent_tick. destruct (timers w !! t) as [[j ms]|]; [|lia].
    destruct (decide (j = jobId)); lia.
  - rewrite status_settle_sent. lia.
  - unfold fetchJob_settle. destruct (job_calls w !! call); [|lia].
    destruct reply; unfold sent; cbn; lia.
  - unfold results_settle. destruct (results_calls w !! call); [|lia].
    destruct reply; unfold sent; cbn; lia.
  - unfold sent. cbn. lia.
Qed.

Lemma foldl_sent (jobId : string) (events : list Event) (w : World) :
  (sent (getJobStatus jobId) (foldl step w events)
   ≤ sent (getJobStatus jobId) w + length (filter is_tick events) +
     fetchJob_calls jobId events)%nat.
Proof.
  unfold fetchJob_calls.
  revert w. induction events as [|ev events IH]; intros w; [cbn; lia|].
  cbn [foldl]. etrans; [apply IH|]. pose proof (step_sent jobId ev w) as H.
  rewrite !filter_cons. destruct (is_tick ev), (fetches_job jobId ev); simpl in *; lia.
Qed.

(** X19. Status requests come from ticks and from calls of [fetchJob] only:
    in every run the status requests sent for a job are at most as many as
    the ticks and the calls of [fetchJob] for the job, whatever fails or is
    retried elsewhere; a run without either sends none. *)
Theorem status_requests_bounded (events : list Event) (jobId : string) :
  (sent (getJobStatus jobId) (run events)
   ≤ length (filter is_tick events) + fetchJob_calls jobId events)%nat.
Proof. apply (foldl_sent jobId events initial_world). Qed.

(** X25. What [fetchJob] does when its request settles is to replace the
    records of the job, or to log the error: the handles, the timers, the
    results, the flags and the requests sent are as before, even when the
    fetched job is completed or failed, so that a tick of the job's timer
    still sends its status request. *)
Theorem fetchJob_keeps_polling (events : list Event) (call : CallId) (jobId : string)
    (reply : Settled EvaluationJob) :
  let w := run events in
  let w' := fetchJob_settle call reply w in
  job_calls w !! call = Some jobId →
  jobs (store w') =
    match reply with
    | resolved job => map (fun j => if decide (job_id j = jobId) then job else j) (jobs (store w))
    | rejected _ => jobs (store w)
    end ∧
  pollingIntervals (store w') = pollingIntervals (store w) ∧
  (∀ other, handles other w' = handles other w) ∧
  currentResults (store w') = currentResults (store w) ∧
  isLoading (store w') = isLoading (store w) ∧
  error (store w') = error (store w) ∧
  requests w' = requests w ∧
  console_errors w' =
    match reply with
    | resolved _ => console_errors w
    | rejected message => console_errors w ++ [message]
    end ∧
  ∀ t other, sent (getJobStatus other) (tick t w') = sent (getJobStatus other) (tick t w).
Proof.
  intros w w' Hcall. unfold w', fetchJob_settle. rewrite Hcall.
  split_and!; try by destruct reply.
  intros t other. by rewrite !sent_tick.
Qed.

Lemma fetchJob_keeps_polling_witness :
  let w := run (two_jobs_polled ++ [FetchJob "job-1"]) in
  let w' := fetchJob_settle 3 (resolved (sample_job "job-1" completed)) w in
  jobs (store w') = [sample_job "job-1" completed; sample_job "job-2" queued] ∧
  pollingIntervals (store w') !! "job-1" = Some 1%positive ∧
  sent (getJobStatus "job-1") (tick 1 w') = 3%nat.
Proof.
  destruct (fetchJob_keeps_polling (two_jobs_polled ++ [FetchJob "job-1"]) 3 "job-1"
              (resolved (sample_job "job-1" completed)))
    as (Hjobs & Hmap & _ & _ & _ & _ & _ & _ & Htick); [reflexivity|].
  split; [rewrite Hjobs; reflexivity|]. split; [rewrite Hmap; reflexivity|].
  rewrite Htick. reflexivity.
Defined.

Lemma poll_round_running (t : TimerId) (jobId : string) (reply : Settled EvaluationJob)
    (w : World) :
  consistent w → pollingIntervals (store w) !! jobId = Some t →
  still_running reply = true →
  let w' := poll_round t reply w in
  consistent w' ∧ pollingIntervals (store w') = pollingIntervals (store w) ∧
  requests w' = requests w ++ [getJobStatus jobId].
Proof.
  intros Hw Ht Hrun w'.
  split; [apply consistent_status_settle, (consistent_step w (Tick t)), Hw|].
  destruct (handle_timer _ Hw _ _ Ht) as [ms Hms].
  destruct reply as [job|]; [|done]. cbn in Hrun. apply negb_true_iff in Hrun.
  unfold w', poll_round, tick. rewrite Hms. unfold status_settle. cbn.
  rewrite lookup_insert_eq, Hrun. done.
Qed.

Lemma poll_rounds_running (t : TimerId) (jobId : string)
    (replies : list (Settled EvaluationJob)) (w : World) :
  consistent w → pollingIntervals (store w) !! jobId = Some t →
  Forall (fun reply => still_running reply = true) replies →
  let w' := poll_rounds t replies w in
  consistent w' ∧ pollingIntervals (store w') = pollingIntervals (store w) ∧
  requests w' = requests w ++ replicate (length replies) (getJobStatus jobId).
Proof.
  revert w. induction replies as [|reply replies IH]; intros w Hw Ht Hall; cbn zeta.
  - cbn. by rewrite app_nil_r.
  - apply Forall_cons in Hall as [Hr Hall].
    destruct (poll_round_running t jobId reply w Hw Ht Hr) as (Hw1 & Hm1 & Hr1).
    cbn [poll_rounds foldl].
    destruct (IH (poll_round t reply w)) as (Hw2 & Hm2 & Hr2); [done|by rewrite Hm1|done|].
    fold (poll_rounds t replies (poll_round t reply w)).
    split; [done|]. split; [by rewrite Hm2|].
    rewrite Hr2, Hr1. cbn [length replicate]. by rewrite <- app_assoc.
Qed.

(** X15. Polling runs until a terminal status: when the replies to the ticks
    of a job's timer are queued or running jobs and then a completed or
    failed one, one status request is sent for each reply, a results request
    follows exactly when the last job is completed, and the handle and the
    timer of the job are gone after the last reply. *)
Theorem polling_until_terminal (events : list Event) (jobId : string) (t : TimerId)
    (replies : list (Settled EvaluationJob)) (final : EvaluationJob) :
  let w := run events in
  let w' := poll_round t (resolved final) (poll_rounds t replies w) in
  pollingIntervals (store w) !! jobId = Some t →
  Forall (fun reply => still_running reply = true) replies →
  status final = completed ∨ status final = failed →
  requests w' =
    requests w ++ replicate (S (length replies)) (getJobStatus jobId) ++
    (if decide (status final = completed) then [getJobResults jobId] else []) ∧
  pollingIntervals (store w') !! jobId = None ∧
  handles jobId w' = ∅.
Proof.
  intros w w' Ht Hall Hfinal. pose proof (consistent_run events) as Hw. fold w in Hw.
  destruct (poll_rounds_running t jobId replies w Hw Ht Hall) as (Hw1 & Hm1 & Hr1).
  set (w1 := poll_rounds t replies w) in *.
  assert (pollingIntervals (store w1) !! jobId = Some t) as Ht1 by by rewrite Hm1.
  destruct (handle_timer _ Hw1 _ _ Ht1) as [ms Hms].
  assert (consistent w') as Hw'.
  { apply consistent_status_settle, (consistent_step w1 (Tick t)), Hw1. }
  assert (is_terminal (status final) = true) as Hterm.
  { unfold is_terminal. by destruct Hfinal as [-> | ->]. }
  assert (pollingIntervals (store w') !! jobId = None) as Hnone.
  { unfold w', poll_round, tick. rewrite Hms. unfold status_settle. cbn [status_calls next_call].
    rewrite lookup_insert_eq, Hterm.
    destruct (decide (status final = completed));
      [change (pollingIntervals (store (fetchResults jobId ?x)))
         with (pollingIntervals (store x))|];
      rewrite stopPolling_lookup; apply lookup_delete_eq. }
  split; [|split; [done|by apply handles_none]].
  unfold w', poll_round, tick. rewrite Hms. unfold status_settle. cbn [status_calls next_call].
  rewrite lookup_insert_eq, Hterm.
  destruct (decide (status final = completed)).
  - change (requests (fetchResults jobId ?x)) with (requests x ++ [getJobResults jobId]).
    rewrite (proj1 (stopPolling_requests _ _)). cbn [requests set_store].
    rewrite Hr1. rewrite <- !app_assoc. f_equal.
    replace (S (length replies)) with (length replies + 1)%nat by lia.
    rewrite replicate_add. cbn. by rewrite <- app_assoc.
  - rewrite (proj1 (stopPolling_requests _ _)). cbn [requests set_store].
    rewrite Hr1, app_nil_r, <- !app_assoc. f_equal.
    replace (S (length replies)) with (length replies + 1)%nat by lia.
    by rewrite replicate_add.
Qed.

Lemma polling_until_terminal_witness :
  let w := run [StartPolling "job-1" 2000] in
  let w' := poll_round 1 (resolved (sample_job "job-1" completed))
              (poll_rounds 1 [resolved (sample_job "job-1" queued);
                              resolved (sample_job "job-1" running)] w) in
  requests w' = [getJobStatus "job-1"; getJobStatus "job-1"; getJobStatus "job-1";
                 getJobResults "job-1"] ∧
  handles "job-1" w' = ∅.
Proof.
  destruct (polling_until_terminal [StartPolling "job-1" 2000] "job-1" 1
              [resolved (sample_job "job-1" queued); resolved (sample_job "job-1" running)]
              (sample_job "job-1" completed)) as (Hreq & _ & Hhandles).
  - reflexivity.
  - repeat constructor.
  - by left.
  - split; [|exact Hhandles]. cbv zeta. rewrite Hreq. reflexivity.
Defined.

Lemma stopAllPolling_clears_witness :
  let w := stopAllPolling (run two_jobs_polled) in
  timers w = ∅ ∧
  sent (getJobStatus "job-2")
    (foldl step w [Tick 1; FetchJob "job-2"; Tick 2; StopPolling "job-1"]) = 2%nat.
Proof.
  destruct (stopAllPolling_clears two_jobs_polled
              [Tick 1; FetchJob "job-2"; Tick 2; StopPolling "job-1"] "job-2")
    as (_ & Htimers & Hlater).
  split; [exact Htimers|]. rewrite Hlater; [reflexivity|]. repeat constructor.
Defined.

Lemma reset_clears_witness :
  let w := reset (run two_jobs_polled) in
  store w = initial_state ∧
  sent (getJobStatus "job-1") (foldl step w [Tick 1; Tick 2; FetchJob "job-2"]) = 1%nat.
Proof.
  destruct (reset_clears two_jobs_polled [Tick 1; Tick 2; FetchJob "job-2"] "job-1")
    as (Hstore & _ & Hlater).
  split; [exact Hstore|]. rewrite Hlater; [reflexivity|]. repeat constructor.
Defined.

Lemma stop_undoes_start_witness :
  let w := run two_jobs_polled in
  timers (stopPolling "job-3" (startPolling "job-3" 2000 w)) = timers w.
Proof.
  destruct (stop_undoes_start two_jobs_polled "job-3" 2000) as (_ & Htimers & _);
    [reflexivity|exact Htimers].
Defined.

Lemma job_update_shape_witness :
  let w := run two_jobs_polled in
  jobs (store (status_settle 1 (resolved (sample_job "job-9" running)) w)) !! 1%nat =
  Some (sample_job "job-2" queued).
Proof.
  destruct (job_update_shape 1 "job-1" (sample_job "job-9" running) (run two_jobs_polled))
    as (_ & Hrecords & _); [reflexivity|].
  exact (Hrecords 1%nat (sample_job "job-2" queued) eq_refl).
Defined.

Example running_status_keeps_polling_sample :
  let w := run two_jobs_polled in
  let w' := status_settle 1 (resolved (sample_job "job-1" running)) w in
  pollingIntervals (store w') = pollingIntervals (store w) ∧ requests w' = requests w.
Proof.
  destruct (running_status_keeps_polling 1 "job-1" (sample_job "job-1" running)
              (run two_jobs_polled)) as (Hmap & _ & Hreq & _).
  - reflexivity.
  - right. reflexivity.
  - split; [exact Hmap|exact Hreq].
Defined.

Lemma other_jobs_untouched_witness :
  let w := run two_jobs_polled in
  handles "job-2" (status_settle 1 (resolved (sample_job "job-1" failed)) w) = handles "job-2" w.
Proof.
  destruct (other_jobs_untouched two_jobs_polled 1 "job-1" "job-2"
              (resolved (sample_job "job-1" failed))) as [_ H]; [reflexivity|done|exact H].
Defined.

Lemma late_reply_still_applied_witness :
  let w := stopPolling "job-1" (run two_jobs_polled) in
  requests (status_settle 1 (resolved (sample_job "job-1" completed)) w) =
  [getJobStatus "job-1"; getJobStatus "job-2"; getJobResults "job-1"].
Proof.
  destruct (late_reply_still_applied two_jobs_polled 1 "job-1" (sample_job "job-1" completed))
    as (_ & Hreq & _); [reflexivity..|].
  cbv zeta. rewrite Hreq. reflexivity.
Defined.

End PollerMore.

(** * Properties of the message text and of the run page's form *)

Module PagesFacts.
Import Stream StreamFacts Pages.
#[local] Arguments str : simpl never.


Lemma split_on_nonempty (sep : Z) (s : jsstring) : split_on sep s ≠ [].
Proof.
  induction s as [|c s IH]; cbn; [done|].
  destruct (c =? sep); [done|]. by destruct (split_on sep s).
Qed.

Lemma split_on_app_sep (sep : Z) (a b : jsstring) :
  split_on sep (a ++ sep :: b) = split_on sep a ++ split_on sep b.
Proof.
  induction a as [|c a IH]; cbn [app split_on].
  - by rewrite Z.eqb_refl.
  - rewrite IH. destruct (c =? sep); [done|].
    destruct (split_on sep a) eqn:E; [by destruct (split_on_nonempty sep a)|done].
Qed.

Lemma split_nl_split_on (s : jsstring) : split_nl s = split_on 10 s.
Proof. induction s as [|c s IH]; cbn; [done|]. by rewrite IH. Qed.

Lemma join_nl_cons (item : option jsstring) (rest : list (option jsstring)) :
  rest ≠ [] → join_nl (item :: rest) = default [] item ++ 10 :: join_nl rest.
Proof. by destruct rest. Qed.

Lemma split_join_nl (items : list (option jsstring)) :
  items ≠ [] →
  split_nl (join_nl items) = concat (map (fun item => split_nl (default [] item)) items).
Proof.
  induction items as [|item rest IH]; [done|]. intros _.
  destruct rest as [|item' rest].
  - cbn. by rewrite app_nil_r.
  - rewrite join_nl_cons by done. rewrite !split_nl_split_on, split_on_app_sep.
    rewrite <- !split_nl_split_on, IH by done. done.
Qed.

(** X20. The text sent to the agent service is made of the text parts of
    the message only: it is empty when there is none, and otherwise its lines
    are the lines of the text parts, in order. *)
Theorem userMessageText_lines (parts : list MessagePart) :
  (text_parts parts = [] → userMessageText parts = []) ∧
  (text_parts parts ≠ [] →
   split_nl (userMessageText parts) =
   concat (map (fun text => split_nl (default [] text)) (text_parts parts))).
Proof.
  unfold userMessageText. split; [by intros ->|apply split_join_nl].
Qed.

Lemma parseKValues_app (a b : jsstring) :
  parseKValues (a ++ 44 :: b) = parseKValues a ++ parseKValues b.
Proof. unfold parseKValues. by rewrite split_on_app_sep, map_app, filter_app. Qed.

Lemma digit_value_nonneg (radix c v : Z) : digit_value radix c = Some v → 0 ≤ v.
Proof.
  unfold digit_value, hex_value, in_range.
  destruct (Z.leb_spec 48 c), (Z.leb_spec c 57); cbn;
    [destruct (_ <? _); intros [= <-]; lia|..];
    (destruct (Z.leb_spec 65 c), (Z.leb_spec c 70); cbn;
       [destruct (_ <? _); intros [= <-]; lia|..];
       (destruct (Z.leb_spec 97 c), (Z.leb_spec c 102); cbn; [|done..];
          destruct (_ <? _); intros [= <-]; lia)).
Qed.

Lemma leading_digits_nonneg (radix : Z) (s : jsstring) (acc : Z) (seen : bool) (n : Z) :
  0 ≤ radix → 0 ≤ acc → leading_digits radix s acc seen = Some n → 0 ≤ n.
Proof.
  intros Hr. revert acc seen. induction s as [|c s IH]; intros acc seen Hacc; cbn.
  - destruct seen; [by intros [= <-]|done].
  - destruct (digit_value radix c) as [v|] eqn:Ev.
    + apply IH. apply digit_value_nonneg in Ev. nia.
    + destruct seen; [by intros [= <-]|done].
Qed.

Lemma read_integer_nonneg (s : jsstring) (negative : bool) (n : Z) :
  read_integer s = Some (negative, n) → 0 ≤ n.
Proof.
  unfold read_integer.
  destruct (match trimStart s with
            | c :: r => if c =? 45 then (true, r) else if c =? 43 then (false, r)
                        else (false, trimStart s)
            | [] => (false, trimStart s)
            end) as [neg s2].
  destruct (match s2 with
            | z :: x :: r => if (z =? 48) && ((x =? 120) || (x =? 88)) then (16, r) else (10, s2)
            | _ => (10, s2)
            end) as [radix s3] eqn:Er.
  assert (0 ≤ radix) as Hr.
  { destruct s2 as [|z [|x r]]; try (injection Er as <- _; lia).
    destruct ((z =? 48) && ((x =? 120) || (x =? 88))); injection Er as <- _; lia. }
  destruct (leading_digits radix s3 0 false) as [m|] eqn:Em; [|done].
  cbn. intros [= _ <-]. by apply (leading_digits_nonneg radix s3 0 false).
Qed.

(** Rounding keeps the sign: the double of a mantissa with a sign is a zero,
    a finite number or an infinity of that sign. *)
Lemma binary_round_sign (prec emax : Z) (sx : bool) (mx : positive) (ex : Z) :
  let v := SpecFloat.binary_round prec emax sx mx ex in
  v = SpecFloat.S754_zero sx ∨ v = SpecFloat.S754_infinity sx ∨ v = SpecFloat.S754_nan ∨
  ∃ m e, v = SpecFloat.S754_finite sx m e.
Proof.
  unfold SpecFloat.binary_round.
  destruct (SpecFloat.shl_align mx ex _) as [mz ez].
  unfold SpecFloat.binary_round_aux.
  destruct (SpecFloat.shr_fexp prec emax (Z.pos mz) ez _) as [mrs' e'].
  destruct (SpecFloat.shr_fexp prec emax _ e' _) as [mrs'' e''].
  destruct (SpecFloat.shr_m mrs'') as [|m|m]; cbn; eauto.
  destruct (e'' <=? emax - prec); eauto 6.
Qed.

(** A Number of an integer that is greater than zero is that of a positive
    integer. *)
Lemma integer_Number_gt_zero (negative : bool) (n : Z) :
  0 ≤ n → gt_zero (Poller.integer_Number negative n) = true →
  negative = false ∧ 0 < n.
Proof.
  intros Hn. unfold Poller.integer_Number, SpecFloat.binary_normalize.
  destruct negative.
  - destruct (- n) as [|m|m] eqn:Em; [done|lia|].
    destruct (binary_round_sign 53 1024 true m 0) as [->|[->|[->|(m' & e' & ->)]]]; done.
  - destruct n as [|m|m]; [done|split; [done|lia]|lia].
Qed.

Lemma parseKValues_positive (input : jsstring) :
  Forall (fun k => isNaN k = false ∧ gt_zero k = true ∧
                   ∃ n : Z, 0 < n ∧ k = Poller.integer_Number false n)
         (parseKValues input).
Proof.
  unfold parseKValues. apply Forall_forall. intros k Hk.
  apply list_elem_of_filter in Hk as [Hk Hin].
  apply andb_prop_elim in Hk as [Hnan Hpos].
  apply negb_prop_elim, Is_true_false in Hnan. apply Is_true_true in Hpos.
  split; [done|]. split; [done|].
  apply list_elem_of_fmap in Hin as (v & -> & _).
  unfold parseInt in *. destruct (read_integer (trim v)) as [[negative n]|] eqn:Er; [|done].
  destruct (integer_Number_gt_zero negative n) as [-> Hn]; [|done|by exists n].
  by apply (read_integer_nonneg (trim v) negative).
Qed.

(** X21. [parseKValues] yields numbers greater than zero only, never NaN,
    each the Number of a positive integer: the nearest double, hence
    [Infinity] for an integer beyond the doubles, which is kept.  It reads the
    entries on either side of a comma independently of each other. *)
Theorem parseKValues_entries (a b : jsstring) :
  Forall (fun k => isNaN k = false ∧ gt_zero k = true ∧
                   ∃ n : Z, 0 < n ∧ k = Poller.integer_Number false n)
         (parseKValues a) ∧
  parseKValues (a ++ str "," ++ b) = parseKValues a ++ parseKValues b ∧
  parseKValues (str "1" ++ replicate 309 48) = [SpecFloat.S754_infinity false].
Proof.
  split; [apply parseKValues_positive|]. split; [apply parseKValues_app|].
  vm_compute. reflexivity.
Qed.

(** X22. The parameters that [handleSubmit] submits always name a dataset
    and hold at least one k value, each greater than zero and the Number of a
    positive integer, which is [Infinity] for an integer beyond the doubles. *)
Theorem handleSubmit_sends_valid_params (selectedDataset : string)
    (retrievalMethod : Poller.RetrievalMethod) (kValues : jsstring)
    (params : Poller.EvaluationRequest) :
  handleSubmit_params selectedDataset retrievalMethod kValues = inr params →
  Poller.request_dataset_id params = selectedDataset ∧ selectedDataset ≠ ""%string ∧
  Poller.request_k_values params ≠ [] ∧
  Forall (fun k => isNaN k = false ∧ gt_zero k = true ∧
                   ∃ n : Z, 0 < n ∧ k = Poller.integer_Number false n)
         (Poller.request_k_values params).
Proof.
  unfold handleSubmit_params.
  case_bool_decide as Hd; [done|]. case_bool_decide as Hk; [done|].
  intros [= <-]. cbn. split; [done|]. split; [done|]. split.
  - destruct (parseKValues kValues); [done|done].
  - apply parseKValues_positive.
Qed.

Lemma userMessageText_lines_witness :
  userMessageText [{| part_type := str "file"; part_text := None |}] = [] ∧
  split_nl (userMessageText
              [{| part_type := str "text"; part_text := Some (str "first") |};
               {| part_type := str "file"; part_text := None |};
               {| part_type := str "text"; part_text := Some (str "second") |}]) =
  [str "first"; str "second"].
Proof.
  split.
  - by apply userMessageText_lines.
  - rewrite (proj2 (userMessageText_lines _)); [reflexivity|discriminate].
Defined.

Lemma handleSubmit_sends_valid_params_witness :
  ∃ params,
    handleSubmit_params "dataset-1" Poller.hybrid (str "3, x,10") = inr params ∧
    Poller.request_k_values params ≠ [].
Proof.
  eexists. split; [reflexivity|].
  eapply (handleSubmit_sends_valid_params "dataset-1" Poller.hybrid (str "3, x,10")).
  reflexivity.
Defined.

Lemma handleSubmit_sends_infinity :
  ∃ params,
    handleSubmit_params "dataset-1" Poller.hybrid (str "1" ++ replicate 309 48) = inr params ∧
    Poller.request_k_values params = [SpecFloat.S754_infinity false].
Proof. eexists. split; vm_compute; reflexivity. Qed.

Example parseKValues_sample :
  parseKValues (str " 3 , abc,0x10,-4,0,-0,7.9,1e3,,+2") =
  map (Poller.integer_Number false) [3; 16; 7; 1; 2].
Proof. vm_compute. reflexivity. Qed.

Example parseInt_rounds :
  parseInt (str "9007199254740993") = Poller.integer_Number false 9007199254740992 ∧
  parseInt (str "-0") = SpecFloat.S754_zero true.
Proof. split; vm_compute; reflexivity. Qed.

End PagesFacts.
